(** * 2048 rules engine ([2048_tk.py]): a shallow embedding and its properties

    Boards are Python tuples of tuples of integers; they are modelled as
    lists of lists of [Z].  Indexing a tuple or a list out of range raises
    [IndexError] in Python, so every function that indexes the board by
    position lives in the error monad [res].  The functions that only walk
    over rows ([compress_row_left], [merge_row_left], [move_left],
    [move_right]) cannot raise and are total.  The random generator of the
    [random] module is hidden global state: it is threaded explicitly as a
    world [W]. *)

From Stdlib Require Import ZArith Lia PrimFloat.
From stdpp Require Import base list strings gmap.

(** ** Exceptions *)

Inductive exn : Set := IndexError | ValueError.

Inductive res (A : Type) : Type :=
  | Ok (a : A)
  | Raise (e : exn).
Arguments Ok {A} a.
Arguments Raise {A} e.

#[global] Instance res_ret : MRet res := λ A a, Ok a.
#[global] Instance res_bind : MBind res := λ A B f m,
  match m with
  | Ok a => f a
  | Raise e => Raise e
  end.

(** A [for] loop whose body may [return True]; falling through gives [False]. *)
Fixpoint existsM {A} (f : A → res bool) (l : list A) : res bool :=
  match l with
  | [] => Ok false
  | x :: l' =>
      match f x with
      | Ok true => Ok true
      | Ok false => existsM f l'
      | Raise e => Raise e
      end
  end.

(** A list comprehension with a condition that may raise. *)
Fixpoint filterM {A} (f : A → res bool) (l : list A) : res (list A) :=
  match l with
  | [] => Ok []
  | x :: l' =>
      match f x with
      | Ok keep =>
          match filterM f l' with
          | Ok k => Ok (if keep then x :: k else k)
          | Raise e => Raise e
          end
      | Raise e => Raise e
      end
  end.

(** ** Boards *)

Abbreviation board := (list (list Z)).

(** [board[r][c]] for non-negative [r] and [c]. *)
Definition cell (b : board) (r c : nat) : res Z :=
  match b !! r with
  | Some row =>
      match row !! c with
      | Some v => Ok v
      | None => Raise IndexError
      end
  | None => Raise IndexError
  end.

(** [range(size)] is empty for a negative [size]. *)
Definition empty_board (size : Z) : board :=
  replicate (Z.to_nat size) (replicate (Z.to_nat size) 0%Z).

Definition board_to_list (b : board) : list (list Z) := b.
Definition list_to_board (lst : list (list Z)) : board := lst.

Definition iter_positions (b : board) : list (nat * nat) :=
  let n := length b in
  r ← seq 0 n; c ← seq 0 n; [(r, c)].

Definition get_empty_positions (b : board) : res (list (nat * nat)) :=
  filterM (λ '(r, c), v ← cell b r c; Ok (bool_decide (v = 0%Z)))
          (iter_positions b).

(** ** Row operations *)

Definition compress_row_left (row : list Z) : list Z :=
  let new := filter (λ x, x ≠ 0%Z) row in
  new ++ replicate (length row - length new) 0%Z.

(** One iteration of the loop of [merge_row_left], at index [i], on the
    state (row, score).  The indices [i] and [i+1] are below [len(row)]
    for every [i] in [range(len(row)-1)], so no lookup fails. *)
Definition merge_step (st : list Z * Z) (i : nat) : list Z * Z :=
  let '(row, score) := st in
  match row !! i, row !! (i + 1) with
  | Some x, Some y =>
      if bool_decide (x ≠ 0%Z ∧ x = y) then
        let doubled := (x * 2)%Z in
        (<[i + 1 := 0%Z]> (<[i := doubled]> row), (score + doubled)%Z)
      else st
  | _, _ => st
  end.

Definition merge_row_left (row : list Z) : list Z * Z :=
  let row0 := compress_row_left row in
  let '(row1, score) :=
    foldl merge_step (row0, 0%Z) (seq 0 (length row0 - 1)) in
  (compress_row_left row1, score).

(** ** Moves *)

(** One iteration of the loop of [move_left], at row index [i], on the
    state (lst, changed, total_score). *)
Definition move_left_step (st : list (list Z) * bool * Z) (i : nat)
  : list (list Z) * bool * Z :=
  let '(lst, changed, total_score) := st in
  match lst !! i with
  | Some old =>
      let '(newrow, s) := merge_row_left old in
      (<[i := newrow]> lst,
       if bool_decide (newrow ≠ old) then true else changed,
       (total_score + s)%Z)
  | None => st
  end.

Definition move_left (b : board) : board * bool * Z :=
  let lst := board_to_list b in
  let '(lst', changed, total_score) :=
    foldl move_left_step (lst, false, 0%Z) (seq 0 (length lst)) in
  (list_to_board lst', changed, total_score).

Definition rotate_cw (b : board) : res board :=
  let n := length b in
  lst ← mapM (λ r, mapM (λ c, cell b (n - 1 - c) r) (seq 0 n)) (seq 0 n);
  Ok (list_to_board lst).

Definition rotate_ccw (b : board) : res board :=
  let n := length b in
  lst ← mapM (λ r, mapM (λ c, cell b c (n - 1 - r)) (seq 0 n)) (seq 0 n);
  Ok (list_to_board lst).

Definition move_right (b : board) : board * bool * Z :=
  let lst := fmap (λ row, reverse row) (board_to_list b) in
  let temp_board := list_to_board lst in
  let '(moved_board, changed, s) := move_left temp_board in
  let lst' := fmap (λ row, reverse row) (board_to_list moved_board) in
  (list_to_board lst', changed, s).

Definition move_up (b : board) : res (board * bool * Z) :=
  rb ← rotate_cw b;
  let '(moved, changed, s) := move_left rb in
  back ← rotate_ccw moved;
  Ok (back, changed, s).

Definition move_down (b : board) : res (board * bool * Z) :=
  rb ← rotate_ccw b;
  let '(moved, changed, s) := move_left rb in
  back ← rotate_cw moved;
  Ok (back, changed, s).

Definition apply_move (b : board) (direction : string)
  : res (board * bool * Z) :=
  if bool_decide (direction = "left") then Ok (move_left b)
  else if bool_decide (direction = "right") then Ok (move_right b)
  else if bool_decide (direction = "up") then move_up b
  else if bool_decide (direction = "down") then move_down b
  else Raise ValueError.

(** ** Terminal conditions *)

Definition adjacent_in_row (b : board) (r c : nat) : res bool :=
  x ← cell b r c; y ← cell b r (c + 1); Ok (bool_decide (x = y)).

Definition adjacent_in_column (b : board) (r c : nat) : res bool :=
  x ← cell b r c; y ← cell b (r + 1) c; Ok (bool_decide (x = y)).

Definition any_moves_possible (b : board) : res bool :=
  empties ← get_empty_positions b;
  if bool_decide (empties ≠ []) then Ok true else
  let n := length b in
  horizontal ←
    existsM (λ r, existsM (λ c, adjacent_in_row b r c) (seq 0 (n - 1)))
            (seq 0 n);
  if (horizontal : bool) then Ok true else
  existsM (λ c, existsM (λ r, adjacent_in_column b r c) (seq 0 (n - 1)))
          (seq 0 n).

Definition reached_goal (b : board) (goal : Z) : res bool :=
  existsM (λ '(r, c), v ← cell b r c; Ok (bool_decide (goal ≤ v)%Z))
          (iter_positions b).

(** The end-of-game check at the end of [GameUI.draw_board]: the win
    popup, else the game-over popup, else nothing. *)
Inductive status : Set := InProgress | Won | Lost.

Definition draw_board_status (b : board) (goal : Z) : res status :=
  won ← reached_goal b goal;
  if (won : bool) then Ok Won else
  movable ← any_moves_possible b;
  if negb movable then Ok Lost else Ok InProgress.

(** ** Random tiles and the game state *)

(** The [random] module: its generator is global state of the
    interpreter, here a world [W].  [random.random()] draws a float and
    [_randbelow(n)] an index below [n]; both advance the generator. *)
Class RandomModule (W : Type) : Type := {
  random_random : W → float * W;
  randbelow : W → nat → nat * W;
  randbelow_lt : ∀ w n, 0 < n → (randbelow w n).1 < n
}.

(** Computations that read and advance the world and may raise. *)
Definition io (W A : Type) : Type := W → res A * W.

#[global] Instance io_ret W : MRet (io W) := λ A a w, (Ok a, w).
#[global] Instance io_bind W : MBind (io W) := λ A B f m w,
  match m w with
  | (Ok a, w') => f a w'
  | (Raise e, w') => (Raise e, w')
  end.

Definition lift {W A} (m : res A) : io W A := λ w, (m, w).

(** An injected source [rnd] is any callable returning a float: it may
    read and advance the world (as the default [random.random] does) or
    ignore it (as a constant [lambda] does). *)
Definition source (W : Type) : Type := W → float * W.

Definition call {W} (rnd : source W) : io W float :=
  λ w, let '(x, w') := rnd w in (Ok x, w').

Section Game.
Context {W : Type} `{RandomModule W}.

(** [random.choice(seq)]: [seq[_randbelow(len(seq))]], an [IndexError]
    on an empty sequence. *)
Definition random_choice {A} (l : list A) : io W A :=
  λ w,
    if bool_decide (l = []) then (Raise IndexError, w) else
    let '(k, w') := randbelow w (length l) in
    match l !! k with
    | Some x => (Ok x, w')
    | None => (Raise IndexError, w')
    end.

(** [lst[r][c] = value] *)
Definition set_cell (lst : list (list Z)) (r c : nat) (value : Z)
  : res (list (list Z)) :=
  match lst !! r with
  | Some row =>
      if bool_decide (c < length row)
      then Ok (<[r := <[c := value]> row]> lst)
      else Raise IndexError
  | None => Raise IndexError
  end.

(** The float literal [0.1]. *)
Definition one_tenth : float := 0x1.999999999999ap-4%float.

Definition add_random_tile (b : board) (rnd : source W)
  : io W (board * option (nat * nat * Z)) :=
  empties ← lift (get_empty_positions b);
  if bool_decide (empties = []) then mret (b, None) else
  '(r, c) ← random_choice empties;
  x ← call rnd;
  let value := if PrimFloat.ltb x one_tenth then 4%Z else 2%Z in
  let lst := board_to_list b in
  lst' ← lift (set_cell lst r c value);
  mret (list_to_board lst', Some (r, c, value)).

Definition init_game (size : Z) (rnd : source W) : io W (board * Z) :=
  let b := empty_board size in
  '(b1, _) ← add_random_tile b rnd;
  '(b2, _) ← add_random_tile b1 rnd;
  mret (b2, 0%Z).

(** The fields of [GameUI] that hold the session. *)
Record GameUI : Type := {
  ui_size : Z;
  ui_goal : Z;
  ui_score : Z;
  ui_board : board
}.

(** [GameUI.perform_move]: the result, the object after the call and the
    world after the call.  [self.score] is assigned before the tile is
    added and [self.board] after it; [draw_board] only renders. *)
Definition perform_move (self : GameUI) (direction : string) (w : W)
  : res unit * GameUI * W :=
  match apply_move (ui_board self) direction with
  | Raise e => (Raise e, self, w)
  | Ok (new_board, changed, gained) =>
      if negb changed then (Ok (), self, w) else
      let self1 := {| ui_size := ui_size self; ui_goal := ui_goal self;
                      ui_score := (ui_score self + gained)%Z;
                      ui_board := ui_board self |} in
      match add_random_tile new_board random_random w with
      | (Raise e, w') => (Raise e, self1, w')
      | (Ok (new_board', added), w') =>
          (Ok (),
           {| ui_size := ui_size self1; ui_goal := ui_goal self1;
              ui_score := ui_score self1; ui_board := new_board' |},
           w')
      end
  end.
End Game.

(** A small generator for examples: the state is a counter, an index is
    the counter modulo the bound, and every draw advances the counter. *)
Definition counter_randbelow (w : nat) (n : nat) : nat * nat :=
  (w `mod` n, S w).

Definition counter_random (w : nat) : float * nat :=
  ((if Nat.even w then 0.5 else 0.0625)%float, S w).

#[global] Instance counter_module : RandomModule nat := {|
  random_random := counter_random;
  randbelow := counter_randbelow;
  randbelow_lt := λ w n Hn,
    Nat.mod_upper_bound w n (proj2 (Nat.neq_0_lt_0 n) Hn)
|}.

(** A pure injected source: [lambda: 0.5]. *)
Definition constant_half {W} : source W := λ w, (0.5%float, w).

(** A session whose tiles are already packed to the left. *)
Definition packed_session : GameUI :=
  {| ui_size := 2; ui_goal := 2048; ui_score := 12;
     ui_board := [[2; 0]; [4; 0]]%Z |}.

(** ** Well-formed boards and observations used in the statements *)

(** A board of side [n]: [n] rows of [n] cells. *)
Definition square (n : nat) (b : board) : Prop :=
  length b = n ∧ Forall (λ row, length row = n) b.

(** The value read at row [r], column [c]; [0] outside the board. *)
Definition at_cell (b : board) (r c : nat) : Z :=
  match cell b r c with
  | Ok v => v
  | Raise _ => 0%Z
  end.

(** The board of side [n] whose cell at row [r], column [c] is [f r c]. *)
Definition tabulate (n : nat) (f : nat → nat → Z) : board :=
  fmap (λ r, fmap (λ c, f r c) (seq 0 n)) (seq 0 n).

(** The board of side [n] whose only tile, of value [v], is at row [r0],
    column [c0]. *)
Definition single_tile (n r0 c0 : nat) (v : Z) : board :=
  tabulate n (λ r c, if bool_decide (r = r0 ∧ c = c0) then v else 0%Z).

Definition row_sum (row : list Z) : Z := foldr Z.add 0%Z row.
Definition board_sum (b : board) : Z := row_sum (fmap row_sum b).

Definition nonneg_board (b : board) : Prop :=
  Forall (Forall (λ v, 0 ≤ v)%Z) b.

Definition is_direction (d : string) : Prop :=
  d = "left" ∨ d = "right" ∨ d = "up" ∨ d = "down".

(** ** The merge rule as the specification words it

    On the tiles of a row (its non-zero values, in order): scanning from
    the left, two equal neighbours become one tile of twice the value,
    which is not looked at again; any other tile is kept. *)
Fixpoint spec_merged_tiles (tiles : list Z) : list Z :=
  match tiles with
  | [] => []
  | x :: rest =>
      match rest with
      | [] => [x]
      | y :: rest' =>
          if bool_decide (x = y) then (2 * x)%Z :: spec_merged_tiles rest'
          else x :: spec_merged_tiles rest
      end
  end.

(** The post-merge values of the merges performed, in order. *)
Fixpoint spec_merge_values (tiles : list Z) : list Z :=
  match tiles with
  | [] => []
  | x :: rest =>
      match rest with
      | [] => []
      | y :: rest' =>
          if bool_decide (x = y) then (2 * x)%Z :: spec_merge_values rest'
          else spec_merge_values rest
      end
  end.

Definition spec_tiles (row : list Z) : list Z := filter (λ x, x ≠ 0%Z) row.

Definition spec_pad (len : nat) (tiles : list Z) : list Z :=
  tiles ++ replicate (len - length tiles) 0%Z.

Definition spec_mergeLeft (row : list Z) : list Z * Z :=
  (spec_pad (length row) (spec_merged_tiles (spec_tiles row)),
   row_sum (spec_merge_values (spec_tiles row))).

(** ** Auxiliary definitions used in the proofs *)

(** The loop of [merge_row_left] read from the head of the part of the
    row it has not visited yet: [x] is the value at the current index
    (after any write by the previous iteration) and [t] what follows. *)
Fixpoint scan_from (x : Z) (t : list Z) : list Z * Z :=
  match t with
  | [] => ([x], 0%Z)
  | y :: t' =>
      if bool_decide (x ≠ 0%Z ∧ x = y) then
        let '(r, s) := scan_from 0%Z t' in ((x * 2)%Z :: r, (x * 2 + s)%Z)
      else
        let '(r, s) := scan_from y t' in (x :: r, s)
  end.

Definition scan (l : list Z) : list Z * Z :=
  match l with
  | [] => ([], 0%Z)
  | x :: t => scan_from x t
  end.

(** The two components of [merge_row_left]. *)
Definition row_result (row : list Z) : list Z := (merge_row_left row).1.

Definition row_score (row : list Z) : Z := (merge_row_left row).2.

(** The rotations on a board of side [n], cell by cell. *)
Definition rot_cw (n : nat) (b : board) : board :=
  tabulate n (λ r c, at_cell b (n - 1 - c) r).

Definition rot_ccw (n : nat) (b : board) : board :=
  tabulate n (λ r c, at_cell b c (n - 1 - r)).

(** Every row reversed, as [move_right] does before and after moving. *)
Definition mirror (b : board) : board := reverse <$> b.

(** [b'] differs from [b] in at least one cell. *)
Definition differ_at (n : nat) (b b' : board) : Prop :=
  ∃ r c, r < n ∧ c < n ∧ at_cell b' r c ≠ at_cell b r c.

(** The sum of [g 0], ..., [g (n-1)]. *)
Definition sum_to (n : nat) (g : nat → Z) : Z := row_sum (g <$> seq 0 n).

(** Some cell is empty. *)
Definition has_empty (n : nat) (b : board) : Prop :=
  ∃ r c, r < n ∧ c < n ∧ at_cell b r c = 0%Z.

(** Two horizontally or vertically adjacent cells hold the same non-zero
    value. *)
Definition has_equal_neighbours (n : nat) (b : board) : Prop :=
  (∃ r c, r < n ∧ c + 1 < n
          ∧ at_cell b r c ≠ 0%Z ∧ at_cell b r c = at_cell b r (c + 1))
  ∨ (∃ r c, r + 1 < n ∧ c < n
            ∧ at_cell b r c ≠ 0%Z ∧ at_cell b r c = at_cell b (r + 1) c).

(** Some cell is at least [goal]. *)
Definition reaches (n : nat) (b : board) (goal : Z) : Prop :=
  ∃ r c, r < n ∧ c < n ∧ (goal ≤ at_cell b r c)%Z.

(** The row of length [n] whose only tile, of value [v], is at index [k]. *)
Definition unit_row (n k : nat) (v : Z) : list Z :=
  (λ c, if bool_decide (c = k) then v else 0%Z) <$> seq 0 n.

(** ** Keys, restart and the entry point *)

(** The dictionary [mapping] of [GameUI.on_key]. *)
Definition key_mapping : gmap string string :=
  list_to_map
    [("Left", "left"); ("Right", "right"); ("Up", "up"); ("Down", "down");
     ("a", "left"); ("d", "right"); ("w", "up"); ("s", "down");
     ("A", "left"); ("D", "right"); ("W", "up"); ("S", "down")].

Section Session.
Context {W : Type} `{RandomModule W}.

(** [GameUI.on_key] on [event.keysym]: [mapping.get(key)] is [None] for a
    key that is not in the dictionary, and [if direction:] also skips an
    empty string. *)
Definition on_key (self : GameUI) (keysym : string) (w : W)
  : res unit * GameUI * W :=
  match key_mapping !! keysym with
  | Some direction =>
      if bool_decide (direction ≠ "") then perform_move self direction w
      else (Ok (), self, w)
  | None => (Ok (), self, w)
  end.

End Session.

Section Main.
(** [int(argv[0])]: [None] when the conversion raises. *)
Context (int_of_string : string → option Z).

(** The board size computed by [main] from the argument list. *)
Definition main_size (argv : list string) : Z :=
  match argv with
  | [] => 4%Z
  | arg :: _ =>
      match int_of_string arg with
      | Some size => if bool_decide (size < 2)%Z then 4%Z else size
      | None => 4%Z
      end
  end.
End Main.

(** ** Further observations used in the statements *)

(** A cell value of the game: empty, or a power of two from 2 on. *)
Definition tile_value (v : Z) : Prop :=
  v = 0%Z ∨ ∃ k : nat, v = (2 ^ Z.of_nat (S k))%Z.

(** Every cell of the board of side [n] satisfies [P]. *)
Definition all_cells (n : nat) (P : Z → Prop) (b : board) : Prop :=
  ∀ r c, r < n → c < n → P (at_cell b r c).

(** Some cell is not empty. *)
Definition has_tile (n : nat) (b : board) : Prop :=
  ∃ r c, r < n ∧ c < n ∧ at_cell b r c ≠ 0%Z.

(** The two positions are next to each other in a row or in a column. *)
Definition adjacent_pos (p q : nat * nat) : Prop :=
  (p.1 = q.1 ∧ (p.2 + 1 = q.2 ∨ q.2 + 1 = p.2))
  ∨ (p.2 = q.2 ∧ (p.1 + 1 = q.1 ∨ q.1 + 1 = p.1)).

(** The row is packed to the left: no tile follows an empty cell. *)
Definition left_packed (row : list Z) : Prop :=
  ∀ i j, i < j → row !! i = Some 0%Z → j < length row → row !! j = Some 0%Z.

(** No two neighbours of the row are equal. *)
Definition no_equal_neighbours (row : list Z) : Prop :=
  ∀ i x y, row !! i = Some x → row !! (S i) = Some y → x ≠ y.

(** [f] rearranges the cells of a board of side [n]: the cell of [f x] at
    row [r], column [c] is the cell of [x] at position [p r c]. *)
Definition relabels (n : nat) (f : board → board)
    (p : nat → nat → nat * nat) : Prop :=
  ∀ x r c, square n x → r < n → c < n →
    (p r c).1 < n ∧ (p r c).2 < n
    ∧ at_cell (f x) r c = at_cell x (p r c).1 (p r c).2.

(** The cell at position [p] is empty. *)
Definition empty_at (b : board) (p : nat * nat) : bool :=
  bool_decide (at_cell b p.1 p.2 = 0%Z).

(** The empty positions of a board, as [get_empty_positions] lists them
    when no index is out of range. *)
Definition empty_cells (b : board) : list (nat * nat) :=
  List.filter (empty_at b) (iter_positions b).

(** [b'] is [b] with the value [v] written at row [r], column [c]. *)
Definition spawned_at (n : nat) (b b' : board) (r c : nat) (v : Z) : Prop :=
  r < n ∧ c < n ∧ at_cell b r c = 0%Z ∧ (v = 2%Z ∨ v = 4%Z)
  ∧ square n b' ∧ at_cell b' r c = v
  ∧ ∀ r' c', (r', c') ≠ (r, c) → at_cell b' r' c' = at_cell b r' c'.


(** The board is what [init_game] builds on side [n]: two tiles, each a 2
    or a 4, on an otherwise empty square board. *)
Definition fresh_board (n : nat) (b : board) : Prop :=
  square n b
  ∧ all_cells n (λ v, v = 0%Z ∨ v = 2%Z ∨ v = 4%Z) b
  ∧ length (empty_cells b) + 2 = n * n
  ∧ (4 ≤ board_sum b ≤ 8)%Z.

(** A full 2 x 2 board, on which no tile can be added. *)
Definition full_board : board := [[2; 4]; [4; 2]]%Z.

(** A session in the middle of a game on a board of side 2. *)
Definition running_session : GameUI :=
  {| ui_size := 2; ui_goal := 2048; ui_score := 8;
     ui_board := [[2; 2]; [0; 4]]%Z |}.


(** * Properties *)

(** ** Evaluation on small inputs *)

Example merge_ex1 : merge_row_left [2;2;4;0]%Z = ([4;4;0;0]%Z, 4%Z).
Proof. reflexivity. Qed.
Example merge_ex2 : merge_row_left [2;2;2;2]%Z = ([4;4;0;0]%Z, 8%Z).
Proof. reflexivity. Qed.
Example merge_ex3 : merge_row_left [0;4;0;4]%Z = ([8;0;0;0]%Z, 8%Z).
Proof. reflexivity. Qed.
Example up_ex : move_up [[0;2];[0;0]]%Z = Ok ([[0;0];[0;2]]%Z, true, 0%Z).
Proof. reflexivity. Qed.
Example am_ex : any_moves_possible [[2;4];[4;2]]%Z = Ok false.
Proof. reflexivity. Qed.
Example am_ex2 : any_moves_possible [[2;4];[4]]%Z = Raise IndexError.
Proof. reflexivity. Qed.
Example mv_ex : apply_move [[2;4];[4;2]]%Z "sideways" = Raise ValueError.
Proof. reflexivity. Qed.
Example spawn_ex :
  (add_random_tile [[0;0];[0;0]]%Z constant_half 1%nat).1
  = Ok ([[0;2];[0;0]]%Z, Some (0, 1, 2%Z)).
Proof. reflexivity. Qed.
Example init_ex : (init_game 1 constant_half 0%nat).1 = Ok ([[2]]%Z, 0%Z).
Proof. reflexivity. Qed.
Example init_ex0 : (init_game (-3) constant_half 0%nat).1 = Ok ([], 0%Z).
Proof. reflexivity. Qed.

(** ** The merge loop against the merge rule *)

Lemma merge_loop_scan_from t : ∀ pre x s,
  foldl merge_step (pre ++ x :: t, s) (seq (length pre) (length t))
  = (pre ++ (scan_from x t).1, (s + (scan_from x t).2)%Z).
Proof.
  induction t as [|y t IH]; intros pre x s.
  - simpl. f_equal. lia.
  - cbn [length seq foldl].
    assert (Hx : (pre ++ x :: y :: t) !! length pre = Some x)
      by (by apply list_lookup_middle).
    assert (Hy : (pre ++ x :: y :: t) !! (length pre + 1) = Some y).
    { rewrite lookup_app_r by lia.
      replace (length pre + 1 - length pre) with 1 by lia. done. }
    unfold merge_step at 2. rewrite Hx, Hy.
    cbn [scan_from]. case_bool_decide as Hc.
    + replace (<[length pre + 1:=0%Z]> (<[length pre:=(x * 2)%Z]> (pre ++ x :: y :: t)))
        with ((pre ++ [(x * 2)%Z]) ++ 0%Z :: t).
      2:{ rewrite insert_app_r_alt by lia. rewrite Nat.sub_diag. cbn.
          rewrite insert_app_r_alt by lia.
          replace (length pre + 1 - length pre) with 1 by lia. cbn.
          by rewrite <- app_assoc. }
      replace (S (length pre)) with (length (pre ++ [(x * 2)%Z]))
        by (rewrite length_app; simpl; lia).
      rewrite IH. destruct (scan_from 0 t) as [r s']. cbn.
      rewrite <- app_assoc. f_equal. lia.
    + replace (pre ++ x :: y :: t) with ((pre ++ [x]) ++ y :: t)
        by (by rewrite <- app_assoc).
      replace (S (length pre)) with (length (pre ++ [x]))
        by (rewrite length_app; simpl; lia).
      rewrite IH. destruct (scan_from y t) as [r s']. cbn.
      by rewrite <- app_assoc.
Qed.

Lemma merge_loop_scan l :
  foldl merge_step (l, 0%Z) (seq 0 (length l - 1)) = scan l.
Proof.
  destruct l as [|x t]; [done|].
  cbn [length]. replace (S (length t) - 1) with (length t) by lia.
  pose proof (merge_loop_scan_from t [] x 0%Z) as E. cbn in E.
  rewrite E. cbn [scan]. by destruct (scan_from x t).
Qed.

Lemma scan_from_zero t : scan_from 0%Z t = (0%Z :: (scan t).1, (scan t).2).
Proof.
  destruct t as [|y t]; [done|]. cbn [scan_from scan].
  rewrite bool_decide_eq_false_2 by (intros [? _]; done).
  by destruct (scan_from y t).
Qed.

Lemma scan_zeros k : scan (replicate k 0%Z) = (replicate k 0%Z, 0%Z).
Proof.
  induction k as [|k IH]; [done|].
  cbn [replicate scan]. rewrite scan_from_zero, IH. done.
Qed.

Lemma scan_length l : length (scan l).1 = length l.
Proof.
  destruct l as [|x t]; [done|]. cbn [scan].
  revert x. induction t as [|y t IH]; intros x; [done|].
  cbn [scan_from]. case_bool_decide.
  - specialize (IH 0%Z). destruct (scan_from 0 t). cbn in *. lia.
  - specialize (IH y). destruct (scan_from y t). cbn in *. lia.
Qed.

(** Induction two tiles at a time, as [spec_merged_tiles] recurses. *)
Lemma tiles_ind (P : list Z → Prop) :
  P [] → (∀ x, P [x]) →
  (∀ x y t, P t → P (y :: t) → P (x :: y :: t)) →
  ∀ l, P l.
Proof.
  intros H0 H1 H2 l.
  assert (P l ∧ ∀ x, P (x :: l)) as [? _]; [|done].
  induction l as [|y t [IHa IHb]]; split; auto.
Qed.

Lemma tiles_of_zeros k : spec_tiles (replicate k 0%Z) = [].
Proof.
  unfold spec_tiles. induction k as [|k IH]; [done|]. cbn [replicate].
  by rewrite filter_cons_False by (intros ?; done).
Qed.

Lemma scan_tiles tiles : Forall (λ x, x ≠ 0%Z) tiles → ∀ k,
  spec_tiles (scan (tiles ++ replicate k 0%Z)).1 = spec_merged_tiles tiles
  ∧ (scan (tiles ++ replicate k 0%Z)).2 = row_sum (spec_merge_values tiles).
Proof.
  induction tiles as [| x | x y t IHt IHyt] using tiles_ind; intros Hnz k.
  - cbn [app]. rewrite scan_zeros. cbn [fst snd]. by rewrite tiles_of_zeros.
  - apply Forall_cons in Hnz as [Hx _].
    cbn [app scan]. destruct k as [|k].
    + cbn [replicate scan_from fst snd spec_merged_tiles spec_merge_values].
      unfold spec_tiles. rewrite filter_cons_True by done. done.
    + cbn [replicate scan_from].
      rewrite bool_decide_eq_false_2 by (intros [_ ->]; done).
      rewrite scan_from_zero, scan_zeros. cbn [fst snd]. split; [|done].
      change (x :: 0%Z :: replicate k 0%Z) with (x :: replicate (S k) 0%Z).
      unfold spec_tiles. rewrite filter_cons_True by done.
      fold (spec_tiles (replicate (S k) 0%Z)). by rewrite tiles_of_zeros.
  - apply Forall_cons in Hnz as [Hx Hyt].
    pose proof Hyt as Hyt2. apply Forall_cons in Hyt2 as [Hy Ht].
    cbn [app scan scan_from spec_merged_tiles spec_merge_values].
    destruct (decide (x = y)) as [->|Hne].
    + rewrite !bool_decide_eq_true_2 by done.
      rewrite scan_from_zero. cbn [fst snd].
      destruct (IHt Ht k) as [E1 E2].
      unfold spec_tiles in *.
      rewrite filter_cons_True by lia.
      rewrite filter_cons_False by (intros ?; done).
      rewrite E1, E2. split; [f_equal; lia|].
      unfold row_sum. cbn. lia.
    + rewrite !bool_decide_eq_false_2 by (try intros [_ ?]; done).
      destruct (IHyt Hyt k) as [E1 E2]. cbn [app scan] in E1, E2.
      destruct (scan_from y (t ++ replicate k 0%Z)) as [r s].
      cbn [fst snd] in *.
      unfold spec_tiles in *. rewrite filter_cons_True by done.
      rewrite E1, E2. done.
Qed.

Lemma tiles_nonzero row : Forall (λ x, x ≠ 0%Z) (spec_tiles row).
Proof.
  apply Forall_forall. intros x Hx.
  by apply list_elem_of_filter in Hx as [? _].
Qed.

Lemma tiles_length row : length (spec_tiles row) ≤ length row.
Proof. apply length_filter. Qed.

Lemma compress_row_left_pad row :
  compress_row_left row = spec_pad (length row) (spec_tiles row).
Proof. done. Qed.

Lemma pad_length len tiles :
  length tiles ≤ len → length (spec_pad len tiles) = len.
Proof.
  intros Hle. unfold spec_pad. rewrite length_app, length_replicate. lia.
Qed.

Lemma compress_row_left_length row :
  length (compress_row_left row) = length row.
Proof. rewrite compress_row_left_pad. apply pad_length, tiles_length. Qed.

Lemma merge_row_left_spec row : merge_row_left row = spec_mergeLeft row.
Proof.
  unfold merge_row_left. rewrite merge_loop_scan.
  rewrite compress_row_left_pad. unfold spec_pad at 1.
  pose proof (scan_tiles (spec_tiles row) (tiles_nonzero row)
                (length row - length (spec_tiles row))) as [E1 E2].
  pose proof (scan_length
    (spec_tiles row ++ replicate (length row - length (spec_tiles row)) 0%Z))
    as EL.
  destruct (scan _) as [row1 score]. cbn [fst snd] in *.
  unfold spec_mergeLeft. rewrite compress_row_left_pad, E1, E2.
  do 2 f_equal. rewrite EL, length_app, length_replicate.
  pose proof (tiles_length row). lia.
Qed.

(** Claim C1.  [merge_row_left] compresses the row (its non-zero values in
    order, then zeros), merges in one pass from the left each pair of equal
    neighbouring tiles, a tile produced by a merge not being merged again,
    compresses again, and returns as score the sum of the post-merge values
    of the merges performed: it computes what the merge rule of the
    specification computes, and merging two 4s scores 8. *)
Theorem merge_row_left_single_pass (row : list Z) :
  compress_row_left row
  = spec_tiles row ++ replicate (length row - length (spec_tiles row)) 0%Z
  ∧ merge_row_left row
    = (spec_pad (length row) (spec_merged_tiles (spec_tiles row)),
       row_sum (spec_merge_values (spec_tiles row)))
  ∧ merge_row_left [4; 4]%Z = ([8; 0]%Z, 8%Z)
  ∧ merge_row_left [2; 2; 4; 0]%Z = ([4; 4; 0; 0]%Z, 4%Z).
Proof. split_and!; [done | apply merge_row_left_spec | done | done]. Qed.

(** ** The loop of [move_left] *)

Lemma move_left_loop rest : ∀ done changed total,
  foldl move_left_step (done ++ rest, changed, total)
        (seq (length done) (length rest))
  = (done ++ fmap row_result rest,
     changed || bool_decide (fmap row_result rest ≠ rest),
     (total + row_sum (fmap row_score rest))%Z).
Proof.
  induction rest as [|row rest IH]; intros done changed total.
  - cbn. rewrite bool_decide_eq_false_2 by (intros ?; done).
    rewrite orb_false_r. f_equal. lia.
  - cbn [length seq foldl]. unfold move_left_step at 2.
    rewrite list_lookup_middle by done.
    destruct (merge_row_left row) as [newrow s] eqn:E.
    assert (E1 : row_result row = newrow) by (unfold row_result; by rewrite E).
    assert (E2 : row_score row = s) by (unfold row_score; by rewrite E).
    replace (<[length done:=newrow]> (done ++ row :: rest))
      with ((done ++ [newrow]) ++ rest).
    2:{ rewrite insert_app_r_alt by lia. rewrite Nat.sub_diag. cbn.
        by rewrite <- app_assoc. }
    replace (S (length done)) with (length (done ++ [newrow]))
      by (rewrite length_app; simpl; lia).
    rewrite IH, !fmap_cons, E1, E2, <- app_assoc. cbn [app].
    f_equal; [f_equal|].
    + repeat case_bool_decide; destruct changed; cbn; try done; congruence.
    + unfold row_sum. cbn. lia.
Qed.

Lemma move_left_eq b :
  move_left b = (fmap row_result b, bool_decide (fmap row_result b ≠ b),
                 row_sum (fmap row_score b)).
Proof.
  unfold move_left, board_to_list, list_to_board.
  pose proof (move_left_loop b [] false 0%Z) as E. cbn [app length] in E.
  rewrite E. cbn. done.
Qed.

(** ** Square boards: no index is out of range *)

Lemma mapM_ok {A B} (f : A → res B) (g : A → B) l :
  (∀ x, x ∈ l → f x = Ok (g x)) → mapM f l = Ok (fmap g l).
Proof.
  induction l as [|x l IH]; intros Hf; [done|].
  cbn. rewrite (Hf x) by left. cbn.
  rewrite IH by (intros; apply Hf; by right). done.
Qed.

Lemma existsM_ok {A} (f : A → res bool) (g : A → bool) l :
  (∀ x, x ∈ l → f x = Ok (g x)) → existsM f l = Ok (existsb g l).
Proof.
  induction l as [|x l IH]; intros Hf; [done|].
  cbn. rewrite (Hf x) by left.
  destruct (g x); [done|]. apply IH. intros; apply Hf; by right.
Qed.

Lemma filterM_ok {A} (f : A → res bool) (g : A → bool) l :
  (∀ x, x ∈ l → f x = Ok (g x)) → filterM f l = Ok (List.filter g l).
Proof.
  induction l as [|x l IH]; intros Hf; [done|].
  cbn. rewrite (Hf x) by left.
  rewrite IH by (intros; apply Hf; by right). by destruct (g x).
Qed.

Lemma elem_of_seq0 n i : i ∈ seq 0 n ↔ i < n.
Proof. rewrite elem_of_seq. lia. Qed.

Section Square.
Context (n : nat).

Lemma square_row b r : square n b → r < n → ∃ row,
  b !! r = Some row ∧ length row = n.
Proof.
  intros [Hlen Hrows] Hr.
  destruct (lookup_lt_is_Some_2 b r) as [row Hrow]; [lia|].
  exists row. split; [done|].
  by eapply (proj1 (Forall_lookup _ _) Hrows).
Qed.

Lemma cell_ok b r c :
  square n b → r < n → c < n → cell b r c = Ok (at_cell b r c).
Proof.
  intros Hsq Hr Hc. destruct (square_row b r Hsq Hr) as (row & Hrow & Hlen).
  destruct (lookup_lt_is_Some_2 row c) as [v Hv]; [lia|].
  unfold at_cell, cell. by rewrite Hrow, Hv.
Qed.

Lemma tabulate_square f : square n (tabulate n f).
Proof.
  split.
  - unfold tabulate. by rewrite length_fmap, length_seq.
  - apply Forall_forall. intros row Hrow.
    apply list_elem_of_fmap in Hrow as (r & -> & _).
    by rewrite length_fmap, length_seq.
Qed.

Lemma at_tabulate f r c : r < n → c < n → at_cell (tabulate n f) r c = f r c.
Proof.
  intros Hr Hc. unfold at_cell, cell, tabulate.
  rewrite list_lookup_fmap, lookup_seq_lt by done. cbn.
  rewrite list_lookup_fmap, lookup_seq_lt by done. done.
Qed.

Lemma row_ext (l l' : list Z) :
  length l = n → length l' = n →
  (∀ c, c < n → l !! c = l' !! c) → l = l'.
Proof.
  intros Hl Hl' Heq. apply list_eq. intros i.
  destruct (decide (i < n)); [by apply Heq|].
  by rewrite !lookup_ge_None_2 by lia.
Qed.

Lemma board_ext b b' :
  square n b → square n b' →
  (∀ r c, r < n → c < n → at_cell b r c = at_cell b' r c) → b = b'.
Proof.
  intros Hsq Hsq' Heq. apply list_eq. intros r.
  destruct (decide (r < n)) as [Hr|Hr].
  - destruct (square_row b r Hsq Hr) as (row & Hrow & Hlen).
    destruct (square_row b' r Hsq' Hr) as (row' & Hrow' & Hlen').
    rewrite Hrow, Hrow'. f_equal. apply row_ext; [done..|].
    intros c Hc. specialize (Heq r c Hr Hc).
    unfold at_cell, cell in Heq. rewrite Hrow, Hrow' in Heq.
    destruct (lookup_lt_is_Some_2 row c) as [v Hv]; [lia|].
    destruct (lookup_lt_is_Some_2 row' c) as [v' Hv']; [lia|].
    rewrite Hv, Hv' in *. by subst.
  - destruct Hsq as [? _], Hsq' as [? _].
    by rewrite !lookup_ge_None_2 by lia.
Qed.

Lemma tabulate_at b : square n b → tabulate n (at_cell b) = b.
Proof.
  intros Hsq. apply board_ext; [apply tabulate_square|done|].
  intros r c Hr Hc. by apply at_tabulate.
Qed.

Lemma tabulate_ext f g :
  (∀ r c, r < n → c < n → f r c = g r c) → tabulate n f = tabulate n g.
Proof.
  intros Hfg. apply board_ext; try apply tabulate_square.
  intros r c Hr Hc. rewrite !at_tabulate by done. by apply Hfg.
Qed.

Lemma rotate_cw_ok b :
  square n b →
  rotate_cw b = Ok (tabulate n (λ r c, at_cell b (n - 1 - c) r)).
Proof.
  intros Hsq. unfold rotate_cw. destruct Hsq as [Hlen Hrows] eqn:E.
  rewrite Hlen. clear E.
  rewrite (mapM_ok _ (λ r, fmap (λ c, at_cell b (n - 1 - c) r) (seq 0 n))).
  - done.
  - intros r Hr%elem_of_seq0. apply mapM_ok.
    intros c Hc%elem_of_seq0. apply cell_ok; [done|lia|done].
Qed.

Lemma rotate_ccw_ok b :
  square n b →
  rotate_ccw b = Ok (tabulate n (λ r c, at_cell b c (n - 1 - r))).
Proof.
  intros Hsq. unfold rotate_ccw. destruct Hsq as [Hlen Hrows] eqn:E.
  rewrite Hlen. clear E.
  rewrite (mapM_ok _ (λ r, fmap (λ c, at_cell b c (n - 1 - r)) (seq 0 n))).
  - done.
  - intros r Hr%elem_of_seq0. apply mapM_ok.
    intros c Hc%elem_of_seq0. apply cell_ok; [done|done|lia].
Qed.

Lemma rot_ccw_cw b : square n b → rot_ccw n (rot_cw n b) = b.
Proof.
  intros Hsq. rewrite <- (tabulate_at b Hsq) at 2.
  apply tabulate_ext. intros r c Hr Hc. unfold rot_cw.
  rewrite at_tabulate by lia. f_equal. lia.
Qed.

Lemma rot_cw_ccw b : square n b → rot_cw n (rot_ccw n b) = b.
Proof.
  intros Hsq. rewrite <- (tabulate_at b Hsq) at 2.
  apply tabulate_ext. intros r c Hr Hc. unfold rot_ccw.
  rewrite at_tabulate by lia. f_equal. lia.
Qed.

Lemma row_result_length row : length (row_result row) = length row.
Proof.
  unfold row_result. rewrite merge_row_left_spec. cbn.
  apply pad_length.
  assert (∀ t, length (spec_merged_tiles t) ≤ length t) as Hle.
  { induction t as [| x | x y t IHt IHyt] using tiles_ind; cbn; [lia..|].
    case_bool_decide; cbn in *; lia. }
  etrans; [apply Hle|apply tiles_length].
Qed.

Lemma move_left_square b : square n b → square n (move_left b).1.1.
Proof.
  intros [Hlen Hrows]. rewrite move_left_eq. cbn. split.
  - by rewrite length_fmap.
  - apply Forall_fmap. eapply Forall_impl; [done|].
    intros row Hrow. cbn. by rewrite row_result_length.
Qed.
End Square.

(** ** The four directions *)

Lemma apply_move_left b : apply_move b "left" = Ok (move_left b).
Proof. reflexivity. Qed.
Lemma apply_move_right b : apply_move b "right" = Ok (move_right b).
Proof. reflexivity. Qed.
Lemma apply_move_up b : apply_move b "up" = move_up b.
Proof. reflexivity. Qed.
Lemma apply_move_down b : apply_move b "down" = move_down b.
Proof. reflexivity. Qed.

Lemma mirror_mirror b : mirror (mirror b) = b.
Proof.
  unfold mirror. rewrite <- list_fmap_compose.
  rewrite <- (list_fmap_id b) at 2. apply list_fmap_ext.
  intros i row _. cbn. apply reverse_involutive.
Qed.

Lemma mirror_square n b : square n b → square n (mirror b).
Proof.
  intros [Hlen Hrows]. split; unfold mirror.
  - by rewrite length_fmap.
  - apply Forall_fmap. eapply Forall_impl; [done|].
    intros row Hrow. cbn. by rewrite length_reverse.
Qed.

Lemma move_right_eq b :
  move_right b
  = (mirror (row_result <$> mirror b),
     bool_decide (row_result <$> mirror b ≠ mirror b),
     row_sum (row_score <$> mirror b)).
Proof.
  unfold move_right, board_to_list, list_to_board.
  fold (mirror b). rewrite move_left_eq. done.
Qed.

Lemma fmap_result_square n b : square n b → square n (row_result <$> b).
Proof.
  intros Hsq. pose proof (move_left_square n b Hsq) as Hm.
  by rewrite move_left_eq in Hm.
Qed.

Lemma move_up_eq n b :
  square n b →
  move_up b
  = Ok (rot_ccw n (row_result <$> rot_cw n b),
        bool_decide (row_result <$> rot_cw n b ≠ rot_cw n b),
        row_sum (row_score <$> rot_cw n b)).
Proof.
  intros Hsq. unfold move_up. rewrite (rotate_cw_ok n) by done. cbn.
  fold (rot_cw n b). rewrite move_left_eq.
  rewrite (rotate_ccw_ok n); [done|].
  apply fmap_result_square, tabulate_square.
Qed.

Lemma move_down_eq n b :
  square n b →
  move_down b
  = Ok (rot_cw n (row_result <$> rot_ccw n b),
        bool_decide (row_result <$> rot_ccw n b ≠ rot_ccw n b),
        row_sum (row_score <$> rot_ccw n b)).
Proof.
  intros Hsq. unfold move_down. rewrite (rotate_ccw_ok n) by done. cbn.
  fold (rot_ccw n b). rewrite move_left_eq.
  rewrite (rotate_cw_ok n); [done|].
  apply fmap_result_square, tabulate_square.
Qed.

(** Every direction is the left move between a change of coordinates
    [fwd] and its inverse [bwd]. *)
Lemma apply_move_conjugate n d :
  is_direction d →
  ∃ fwd bwd : board → board,
    (∀ x, square n x → square n (fwd x) ∧ bwd (fwd x) = x) ∧
    (∀ x, square n x → square n (bwd x) ∧ fwd (bwd x) = x) ∧
    (∀ b, square n b →
       apply_move b d
       = Ok (bwd (row_result <$> fwd b),
             bool_decide (row_result <$> fwd b ≠ fwd b),
             row_sum (row_score <$> fwd b))) ∧
    (fwd = id ∨ fwd = mirror ∨ fwd = rot_cw n ∨ fwd = rot_ccw n).
Proof.
  intros [-> | [-> | [-> | ->]]].
  - exists id, id. split_and!; [done..| |by left].
    intros b _. by rewrite apply_move_left, move_left_eq.
  - exists mirror, mirror. split_and!; [| | |naive_solver].
    1,2: intros x Hx; split; auto using mirror_square, mirror_mirror.
    intros b _. by rewrite apply_move_right, move_right_eq.
  - exists (rot_cw n), (rot_ccw n). split_and!; [| | |naive_solver].
    1,2: intros x Hx; split;
      [apply tabulate_square|auto using rot_cw_ccw, rot_ccw_cw].
    intros b Hsq. by rewrite apply_move_up, (move_up_eq n).
  - exists (rot_ccw n), (rot_cw n). split_and!; [| | |naive_solver].
    1,2: intros x Hx; split;
      [apply tabulate_square|auto using rot_cw_ccw, rot_ccw_cw].
    intros b Hsq. by rewrite apply_move_down, (move_down_eq n).
Qed.

Lemma boards_differ n b b' :
  square n b → square n b' → b' ≠ b ↔ differ_at n b b'.
Proof.
  intros Hsq Hsq'. split.
  - intros Hne.
    destruct (decide (Exists (λ r, Exists (λ c,
                at_cell b' r c ≠ at_cell b r c) (seq 0 n)) (seq 0 n)))
      as [Hex|Hall].
    + apply Exists_exists in Hex as (r & Hr%elem_of_seq0 & Hex).
      apply Exists_exists in Hex as (c & Hc%elem_of_seq0 & Hex).
      by exists r, c.
    + destruct Hne. apply (board_ext n); [done..|].
      intros r c Hr Hc. destruct (decide (at_cell b' r c = at_cell b r c));
        [done|].
      destruct Hall. apply Exists_exists. exists r.
      split; [by apply elem_of_seq0|].
      apply Exists_exists. exists c. split; [by apply elem_of_seq0|done].
  - intros (r & c & Hr & Hc & Hne) ->. done.
Qed.

(** Claim C3.  On a square board, every directional move returns, and its
    changed flag is true exactly when the returned board differs from the
    input board in at least one cell; this holds for right, up and down as
    well, where the flag is computed on the mirrored or rotated board. *)
Theorem changed_iff_board_differs n b d :
  square n b → is_direction d →
  ∃ b' changed s,
    apply_move b d = Ok (b', changed, s) ∧
    (changed = true ↔ differ_at n b b').
Proof.
  intros Hsq Hd.
  destruct (apply_move_conjugate n d Hd)
    as (fwd & bwd & Hfwd & Hbwd & Hmove & _).
  rewrite Hmove by done. eexists _, _, _. split; [done|].
  destruct (Hfwd b Hsq) as [Hsqf Hbf].
  pose proof (fmap_result_square n _ Hsqf) as Hsqm.
  destruct (Hbwd _ Hsqm) as [Hsqb Hfb].
  rewrite <- (boards_differ n) by done.
  rewrite bool_decide_eq_true. split.
  - intros Hne Heq. apply Hne. by rewrite <- Hfb, Heq.
  - intros Hne Heq. apply Hne. by rewrite Heq.
Qed.

Lemma changed_iff_board_differs_witness :
  square 2 [[0; 2]; [0; 0]]%Z ∧ is_direction "down"
  ∧ ∃ b' changed s,
      apply_move [[0; 2]; [0; 0]]%Z "down" = Ok (b', changed, s)
      ∧ (changed = true ↔ differ_at 2 [[0; 2]; [0; 0]]%Z b').
Proof.
  assert (Hsq : square 2 [[0; 2]; [0; 0]]%Z)
    by (split; [reflexivity | repeat constructor]).
  assert (Hd : is_direction "down") by (do 3 right; reflexivity).
  split_and!; [done..|].
  exact (changed_iff_board_differs 2 _ "down" Hsq Hd).
Defined.

(** ** Conservation of the total *)

Lemma row_sum_cons x l : row_sum (x :: l) = (x + row_sum l)%Z.
Proof. done. Qed.

Lemma row_sum_app l l' : row_sum (l ++ l') = (row_sum l + row_sum l')%Z.
Proof.
  induction l as [|x l IH]; [done|].
  cbn [app]. rewrite !row_sum_cons, IH. lia.
Qed.

Lemma row_sum_zeros k : row_sum (replicate k 0%Z) = 0%Z.
Proof. induction k as [|k IH]; [done|]. cbn [replicate]. by rewrite row_sum_cons, IH. Qed.

Lemma row_sum_tiles row : row_sum (spec_tiles row) = row_sum row.
Proof.
  unfold spec_tiles. induction row as [|x row IH]; [done|].
  destruct (decide (x = 0%Z)) as [->|Hx].
  - rewrite filter_cons_False by (intros ?; done). by rewrite row_sum_cons, IH.
  - rewrite filter_cons_True by done. by rewrite !row_sum_cons, IH.
Qed.

Lemma spec_merged_tiles_pair x y t :
  spec_merged_tiles (x :: y :: t)
  = if bool_decide (x = y) then (2 * x)%Z :: spec_merged_tiles t
    else x :: spec_merged_tiles (y :: t).
Proof. done. Qed.

Lemma spec_merge_values_pair x y t :
  spec_merge_values (x :: y :: t)
  = if bool_decide (x = y) then (2 * x)%Z :: spec_merge_values t
    else spec_merge_values (y :: t).
Proof. done. Qed.

Lemma row_sum_merged tiles : row_sum (spec_merged_tiles tiles) = row_sum tiles.
Proof.
  induction tiles as [| x | x y t IHt IHyt] using tiles_ind; [done..|].
  rewrite spec_merged_tiles_pair. case_bool_decide.
  - rewrite !row_sum_cons, IHt. lia.
  - rewrite !row_sum_cons, IHyt, row_sum_cons. lia.
Qed.

Lemma row_sum_result row : row_sum (row_result row) = row_sum row.
Proof.
  unfold row_result. rewrite merge_row_left_spec. cbn [fst spec_mergeLeft].
  unfold spec_pad.
  by rewrite row_sum_app, row_sum_zeros, row_sum_merged, row_sum_tiles, Z.add_0_r.
Qed.

Lemma row_sum_reverse l : row_sum (reverse l) = row_sum l.
Proof.
  induction l as [|x l IH]; [done|].
  rewrite reverse_cons, row_sum_app, IH, !row_sum_cons. cbn. lia.
Qed.

Lemma board_sum_fmap (f : list Z → list Z) b :
  (∀ row, row_sum (f row) = row_sum row) → board_sum (f <$> b) = board_sum b.
Proof.
  intros Hf. unfold board_sum. rewrite <- list_fmap_compose.
  f_equal. apply list_fmap_ext. intros i row _. apply Hf.
Qed.

Lemma sum_to_S n g : sum_to (S n) g = (sum_to n g + g n)%Z.
Proof.
  unfold sum_to. rewrite seq_S, fmap_app, row_sum_app. cbn. lia.
Qed.

Lemma sum_to_S_head n g :
  sum_to (S n) g = (g 0%nat + sum_to n (λ i, g (S i)))%Z.
Proof.
  unfold sum_to. cbn [seq]. rewrite fmap_cons, row_sum_cons.
  by rewrite <- fmap_S_seq, <- list_fmap_compose.
Qed.

Lemma sum_to_ext n g h : (∀ i, i < n → g i = h i) → sum_to n g = sum_to n h.
Proof.
  intros Hgh. unfold sum_to. f_equal. apply list_fmap_ext.
  intros i x Hx. apply lookup_seq in Hx as [-> ?]. by apply Hgh.
Qed.

Lemma sum_to_rev n g : sum_to n (λ i, g (n - 1 - i)) = sum_to n g.
Proof.
  induction n as [|n IH]; [done|].
  rewrite sum_to_S_head, sum_to_S, <- IH.
  replace (S n - 1 - 0) with n by lia. rewrite Z.add_comm. f_equal.
  apply sum_to_ext. intros i Hi. f_equal. lia.
Qed.

Lemma sum_to_add n g h :
  sum_to n (λ i, (g i + h i)%Z) = (sum_to n g + sum_to n h)%Z.
Proof. induction n as [|n IH]; [done|]. rewrite !sum_to_S, IH. lia. Qed.

Lemma sum_to_exchange n m (f : nat → nat → Z) :
  sum_to n (λ r, sum_to m (f r)) = sum_to m (λ c, sum_to n (λ r, f r c)).
Proof.
  induction n as [|n IH].
  - transitivity (sum_to m (λ _, 0%Z)); [|by apply sum_to_ext].
    induction m as [|m IHm]; [done|]. rewrite sum_to_S, <- IHm. done.
  - rewrite sum_to_S, IH, <- sum_to_add. apply sum_to_ext.
    intros c _. by rewrite sum_to_S.
Qed.

Lemma board_sum_tabulate n f :
  board_sum (tabulate n f) = sum_to n (λ r, sum_to n (f r)).
Proof.
  unfold board_sum, tabulate, sum_to. by rewrite <- list_fmap_compose.
Qed.

Lemma board_sum_rot_cw n b : square n b → board_sum (rot_cw n b) = board_sum b.
Proof.
  intros Hsq. rewrite <- (tabulate_at n b Hsq) at 2.
  unfold rot_cw. rewrite !board_sum_tabulate.
  rewrite (sum_to_exchange n n (λ r c, at_cell b (n - 1 - c) r)).
  pose proof (sum_to_rev n (λ i, sum_to n (λ r, at_cell b i r))) as E.
  cbn beta in E. rewrite E. by apply sum_to_ext.
Qed.

Lemma board_sum_rot_ccw n b : square n b → board_sum (rot_ccw n b) = board_sum b.
Proof.
  intros Hsq. rewrite <- (tabulate_at n b Hsq) at 2.
  unfold rot_ccw. rewrite !board_sum_tabulate.
  pose proof (sum_to_rev n (λ i, sum_to n (λ c, at_cell b c i))) as E.
  cbn beta in E. rewrite E.
  rewrite (sum_to_exchange n n (λ r c, at_cell b c r)).
  by apply sum_to_ext.
Qed.

Lemma board_sum_mirror b : board_sum (mirror b) = board_sum b.
Proof. apply board_sum_fmap, row_sum_reverse. Qed.

(** Claim C10.  On a square board, for each of the four directions,
    [apply_move] returns a board whose cells sum to the same total as the
    cells of the input board. *)
Theorem apply_move_conserves_sum n b d :
  square n b → is_direction d →
  ∃ b' changed s,
    apply_move b d = Ok (b', changed, s) ∧ board_sum b' = board_sum b.
Proof.
  intros Hsq Hd.
  destruct (apply_move_conjugate n d Hd)
    as (fwd & bwd & Hfwd & Hbwd & Hmove & Hcases).
  rewrite Hmove by done. eexists _, _, _. split; [done|].
  assert (Hsum : ∀ x, square n x → board_sum (fwd x) = board_sum x).
  { intros x Hx.
    destruct Hcases as [-> | [-> | [-> | ->]]];
      auto using board_sum_mirror, board_sum_rot_cw, board_sum_rot_ccw. }
  destruct (Hfwd b Hsq) as [Hsqf _].
  pose proof (fmap_result_square n _ Hsqf) as Hsqm.
  destruct (Hbwd _ Hsqm) as [Hsqb Hfb].
  rewrite <- (Hsum (bwd _)), Hfb by done.
  rewrite board_sum_fmap by apply row_sum_result. by apply Hsum.
Qed.

Lemma apply_move_conserves_sum_witness :
  square 2 [[2; 2]; [4; 0]]%Z ∧ is_direction "left"
  ∧ ∃ b' changed s,
      apply_move [[2; 2]; [4; 0]]%Z "left" = Ok (b', changed, s)
      ∧ board_sum b' = board_sum [[2; 2]; [4; 0]]%Z.
Proof.
  assert (Hsq : square 2 [[2; 2]; [4; 0]]%Z)
    by (split; [reflexivity | repeat constructor]).
  assert (Hd : is_direction "left") by (left; reflexivity).
  split_and!; [done..|].
  exact (apply_move_conserves_sum 2 _ "left" Hsq Hd).
Defined.

(** ** Moving twice *)

Lemma at_cell_nonneg b r c : nonneg_board b → (0 ≤ at_cell b r c)%Z.
Proof.
  intros Hb. unfold at_cell, cell.
  destruct (b !! r) as [row|] eqn:Hrow; [|done].
  destruct (row !! c) as [v|] eqn:Hv; [|done].
  eapply (proj1 (Forall_lookup _ _)); [|done].
  by eapply (proj1 (Forall_lookup _ _) Hb).
Qed.

Lemma nonneg_tabulate n f :
  (∀ r c, (0 ≤ f r c)%Z) → nonneg_board (tabulate n f).
Proof.
  intros Hf. apply Forall_fmap, Forall_forall. intros r _. cbn.
  apply Forall_fmap, Forall_forall. intros c _. apply Hf.
Qed.

Lemma nonneg_mirror b : nonneg_board b → nonneg_board (mirror b).
Proof.
  intros Hb. apply Forall_fmap. eapply Forall_impl; [done|].
  intros row Hrow. cbn. by apply Forall_reverse.
Qed.

Lemma merge_values_positive tiles :
  Forall (λ x, 0 < x)%Z tiles → Forall (λ x, 0 < x)%Z (spec_merge_values tiles).
Proof.
  induction tiles as [| x | x y t IHt IHyt] using tiles_ind; intros Hpos;
    [constructor..|].
  apply Forall_cons in Hpos as [Hx Hyt].
  pose proof Hyt as Hyt2. apply Forall_cons in Hyt2 as [Hy Ht].
  rewrite spec_merge_values_pair. case_bool_decide; [|by apply IHyt].
  constructor; [lia|by apply IHt].
Qed.

Lemma row_sum_positive l :
  Forall (λ x, 0 < x)%Z l → (0 ≤ row_sum l)%Z ∧ (row_sum l = 0%Z → l = []).
Proof.
  induction 1 as [|x l Hx _ [IH1 IH2]]; [done|].
  rewrite row_sum_cons. split; [lia|]. intros ?; lia.
Qed.

Lemma merged_tiles_no_merge tiles :
  spec_merge_values tiles = [] → spec_merged_tiles tiles = tiles.
Proof.
  induction tiles as [| x | x y t IHt IHyt] using tiles_ind; [done..|].
  rewrite spec_merge_values_pair, spec_merged_tiles_pair.
  case_bool_decide; [done|]. intros E. by rewrite IHyt.
Qed.

Lemma tiles_of_pad len tiles :
  Forall (λ x, x ≠ 0%Z) tiles → spec_tiles (spec_pad len tiles) = tiles.
Proof.
  intros Hnz. unfold spec_pad, spec_tiles. rewrite filter_app.
  fold (spec_tiles (replicate (len - length tiles) 0%Z)).
  rewrite tiles_of_zeros, app_nil_r.
  induction Hnz as [|x l Hx _ IH]; [done|].
  by rewrite filter_cons_True, IH.
Qed.

Lemma tiles_positive row :
  Forall (λ v, 0 ≤ v)%Z row → Forall (λ x, 0 < x)%Z (spec_tiles row).
Proof.
  intros Hrow. apply Forall_forall. intros x Hx.
  apply list_elem_of_filter in Hx as [Hnz Hin].
  pose proof (proj1 (Forall_forall _ _) Hrow x Hin). cbn in *. lia.
Qed.

Lemma row_score_nonneg row :
  Forall (λ v, 0 ≤ v)%Z row → (0 ≤ row_score row)%Z.
Proof.
  intros Hrow. unfold row_score. rewrite merge_row_left_spec. cbn.
  by apply row_sum_positive, merge_values_positive, tiles_positive.
Qed.

Lemma row_result_stable row :
  Forall (λ v, 0 ≤ v)%Z row → row_score row = 0%Z →
  row_result (row_result row) = row_result row
  ∧ row_score (row_result row) = 0%Z.
Proof.
  intros Hrow Hscore. unfold row_score in Hscore.
  rewrite merge_row_left_spec in Hscore. cbn in Hscore.
  apply row_sum_positive in Hscore;
    [|by apply merge_values_positive, tiles_positive].
  assert (E : row_result row = spec_pad (length row) (spec_tiles row)).
  { unfold row_result. rewrite merge_row_left_spec. cbn.
    by rewrite merged_tiles_no_merge. }
  rewrite E. unfold row_result at 1, row_score.
  rewrite merge_row_left_spec. cbn.
  rewrite tiles_of_pad by apply tiles_nonzero.
  rewrite merged_tiles_no_merge, Hscore by done.
  by rewrite pad_length by apply tiles_length.
Qed.

Lemma board_result_stable b :
  nonneg_board b → row_sum (row_score <$> b) = 0%Z →
  row_result <$> (row_result <$> b) = row_result <$> b
  ∧ row_sum (row_score <$> (row_result <$> b)) = 0%Z.
Proof.
  induction 1 as [|row b Hrow Hb IH]; [done|].
  rewrite !fmap_cons, !row_sum_cons. intros Hsum.
  pose proof (row_score_nonneg row Hrow).
  assert (0 ≤ row_sum (row_score <$> b))%Z.
  { clear IH Hsum. induction Hb as [|r b Hr _ IH]; [done|].
    rewrite fmap_cons, row_sum_cons. pose proof (row_score_nonneg r Hr). lia. }
  destruct (row_result_stable row Hrow) as [E1 E2]; [lia|].
  destruct IH as [E3 E4]; [lia|].
  rewrite E1, E2, E3, E4. done.
Qed.

(** Claim C2, as amended.  On a square board with non-negative cells, if
    a directional move merged no tiles (its score is 0), then the same move
    applied to the board it returned changes nothing: it returns that
    board, changed = false and score 0. *)
Theorem repeated_move_without_merge n b d b1 changed1 :
  square n b → nonneg_board b → is_direction d →
  apply_move b d = Ok (b1, changed1, 0%Z) →
  apply_move b1 d = Ok (b1, false, 0%Z).
Proof.
  intros Hsq Hnn Hd.
  destruct (apply_move_conjugate n d Hd)
    as (fwd & bwd & Hfwd & Hbwd & Hmove & Hcases).
  rewrite Hmove by done. intros [= <- _ Hscore].
  destruct (Hfwd b Hsq) as [Hsqf _].
  pose proof (fmap_result_square n _ Hsqf) as Hsqm.
  destruct (Hbwd _ Hsqm) as [Hsqb Hfb].
  assert (Hnnf : nonneg_board (fwd b)).
  { destruct Hcases as [-> | [-> | [-> | ->]]];
      [done|by apply nonneg_mirror|..];
      apply nonneg_tabulate; intros; by apply at_cell_nonneg. }
  destruct (board_result_stable _ Hnnf Hscore) as [Hstable Hzero].
  rewrite Hmove, Hfb, Hstable, Hzero by done.
  by rewrite bool_decide_eq_false_2 by (intros Hne; by apply Hne).
Qed.

(** Claim C2 as stated fails: a move that merges can leave equal
    neighbours, which the same move merges when applied again. *)
Lemma second_move_changes_again :
  apply_move [[2;2;2;2]; [0;0;0;0]; [0;0;0;0]; [0;0;0;0]]%Z "left"
  = Ok ([[4;4;0;0]; [0;0;0;0]; [0;0;0;0]; [0;0;0;0]]%Z, true, 8%Z)
  ∧ apply_move [[4;4;0;0]; [0;0;0;0]; [0;0;0;0]; [0;0;0;0]]%Z "left"
  = Ok ([[8;0;0;0]; [0;0;0;0]; [0;0;0;0]; [0;0;0;0]]%Z, true, 8%Z).
Proof. split; reflexivity. Qed.

Lemma repeated_move_without_merge_witness :
  square 2 [[0;2];[4;0]]%Z ∧ nonneg_board [[0;2];[4;0]]%Z
  ∧ is_direction "up"
  ∧ apply_move [[0;2];[4;0]]%Z "up" = Ok ([[0;0];[4;2]]%Z, true, 0%Z)
  ∧ apply_move [[0;0];[4;2]]%Z "up" = Ok ([[0;0];[4;2]]%Z, false, 0%Z).
Proof.
  assert (Hsq : square 2 [[0;2];[4;0]]%Z)
    by (split; [reflexivity|repeat constructor]).
  assert (Hnn : nonneg_board [[0;2];[4;0]]%Z)
    by (repeat constructor; done).
  assert (Hd : is_direction "up") by (right; right; left; reflexivity).
  assert (Hm : apply_move [[0;2];[4;0]]%Z "up" = Ok ([[0;0];[4;2]]%Z, true, 0%Z))
    by reflexivity.
  split_and!; [done..|].
  exact (repeated_move_without_merge 2 _ "up" _ true Hsq Hnn Hd Hm).
Defined.

(** ** Terminal conditions *)

Lemma elem_of_iter_positions b r c :
  (r, c) ∈ iter_positions b ↔ r < length b ∧ c < length b.
Proof.
  unfold iter_positions. rewrite list_elem_of_bind. split.
  - intros (r' & Hin & Hr%elem_of_seq0).
    apply list_elem_of_bind in Hin as (c' & Hin & Hc%elem_of_seq0).
    apply list_elem_of_singleton in Hin as [= -> ->]. done.
  - intros [Hr Hc]. exists r. split; [|by apply elem_of_seq0].
    apply list_elem_of_bind. exists c. split; [|by apply elem_of_seq0].
    by apply list_elem_of_singleton.
Qed.

Lemma existsb_seq (g : nat → bool) n :
  existsb g (seq 0 n) = true ↔ ∃ i, i < n ∧ g i = true.
Proof.
  rewrite existsb_exists. split.
  - intros (i & Hi%list_elem_of_In%elem_of_seq0 & Hg). eauto.
  - intros (i & Hi & Hg). exists i. split; [|done].
    by apply list_elem_of_In, elem_of_seq0.
Qed.

Section Terminal.
Context (n : nat) (b : board) (Hsq : square n b).

Lemma get_empty_positions_ok :
  ∃ empties, get_empty_positions b = Ok empties
             ∧ (empties ≠ [] ↔ has_empty n b).
Proof using Hsq.
  pose proof Hsq as [Hlen _].
  set (g := λ p : nat * nat, bool_decide (at_cell b p.1 p.2 = 0%Z)).
  exists (List.filter g (iter_positions b)). split.
  - apply filterM_ok. intros [r c] [Hr Hc]%elem_of_iter_positions.
    rewrite (cell_ok n) by (done || lia). done.
  - split.
    + intros Hne. destruct (List.filter g (iter_positions b)) as [|[r c] l] eqn:E;
        [done|].
      assert (Hin : In (r, c) (List.filter g (iter_positions b)))
        by (rewrite E; by left).
      apply filter_In in Hin as [Hin Hg].
      apply list_elem_of_In, elem_of_iter_positions in Hin as [Hr Hc].
      apply bool_decide_eq_true in Hg. exists r, c. split_and!; (done || lia).
    + intros (r & c & Hr & Hc & Hz) E.
      assert (Hin : In (r, c) (List.filter g (iter_positions b))).
      { apply filter_In. split.
        - apply list_elem_of_In, elem_of_iter_positions. lia.
        - by apply bool_decide_eq_true. }
      by rewrite E in Hin.
Qed.

Lemma reached_goal_ok goal :
  ∃ v, reached_goal b goal = Ok v ∧ (v = true ↔ reaches n b goal).
Proof using Hsq.
  pose proof Hsq as [Hlen _].
  set (g := λ p : nat * nat, bool_decide (goal ≤ at_cell b p.1 p.2)%Z).
  exists (existsb g (iter_positions b)). split.
  - apply existsM_ok. intros [r c] [Hr Hc]%elem_of_iter_positions.
    rewrite (cell_ok n) by (done || lia). done.
  - rewrite existsb_exists. split.
    + intros ([r c] & Hin & Hg).
      apply list_elem_of_In, elem_of_iter_positions in Hin as [Hr Hc].
      apply bool_decide_eq_true in Hg. exists r, c. split_and!; (done || lia).
    + intros (r & c & Hr & Hc & Hg). exists (r, c). split.
      * apply list_elem_of_In, elem_of_iter_positions. lia.
      * by apply bool_decide_eq_true.
Qed.

Lemma horizontal_ok :
  ∃ v, existsM (λ r, existsM (λ c, adjacent_in_row b r c) (seq 0 (n - 1)))
               (seq 0 n) = Ok v
       ∧ (v = true ↔ ∃ r c, r < n ∧ c + 1 < n
                            ∧ at_cell b r c = at_cell b r (c + 1)).
Proof using Hsq.
  set (g := λ r c, bool_decide (at_cell b r c = at_cell b r (c + 1))).
  exists (existsb (λ r, existsb (g r) (seq 0 (n - 1))) (seq 0 n)). split.
  - apply existsM_ok. intros r Hr%elem_of_seq0.
    apply existsM_ok. intros c Hc%elem_of_seq0.
    unfold adjacent_in_row. rewrite !(cell_ok n) by (done || lia). done.
  - rewrite existsb_seq. split.
    + intros (r & Hr & (c & Hc & Hg%bool_decide_eq_true)%existsb_seq).
      exists r, c. split_and!; (done || lia).
    + intros (r & c & Hr & Hc & Hg). exists r. split; [done|].
      apply existsb_seq. exists c. split; [lia|].
      by apply bool_decide_eq_true.
Qed.

Lemma vertical_ok :
  ∃ v, existsM (λ c, existsM (λ r, adjacent_in_column b r c) (seq 0 (n - 1)))
               (seq 0 n) = Ok v
       ∧ (v = true ↔ ∃ r c, r + 1 < n ∧ c < n
                            ∧ at_cell b r c = at_cell b (r + 1) c).
Proof using Hsq.
  set (g := λ c r, bool_decide (at_cell b r c = at_cell b (r + 1) c)).
  exists (existsb (λ c, existsb (g c) (seq 0 (n - 1))) (seq 0 n)). split.
  - apply existsM_ok. intros c Hc%elem_of_seq0.
    apply existsM_ok. intros r Hr%elem_of_seq0.
    unfold adjacent_in_column. rewrite !(cell_ok n) by (done || lia). done.
  - rewrite existsb_seq. split.
    + intros (c & Hc & (r & Hr & Hg%bool_decide_eq_true)%existsb_seq).
      exists r, c. split_and!; (done || lia).
    + intros (r & c & Hr & Hc & Hg). exists c. split; [done|].
      apply existsb_seq. exists r. split; [lia|].
      by apply bool_decide_eq_true.
Qed.

Lemma any_moves_possible_ok :
  ∃ v, any_moves_possible b = Ok v
       ∧ (v = true ↔ has_empty n b ∨ has_equal_neighbours n b).
Proof using Hsq.
  pose proof Hsq as [Hlen _].
  destruct get_empty_positions_ok as (empties & He & Hempty).
  destruct horizontal_ok as (h & Hh & Hhor).
  destruct vertical_ok as (v & Hv & Hver).
  unfold any_moves_possible. rewrite He. cbn. rewrite Hlen.
  case_bool_decide as Hne.
  { exists true. split; [done|]. split; [|done]. intros _. left. tauto. }
  assert (Hfull : ∀ r c, r < n → c < n → at_cell b r c ≠ 0%Z).
  { intros r c Hr Hc Hz. apply (proj2 Hempty); [by exists r, c|done]. }
  rewrite Hh. cbn. destruct h.
  { exists true. split; [done|]. split; [|done]. intros _. right. left.
    destruct (proj1 Hhor eq_refl) as (r & c & Hr & Hc & E).
    exists r, c. split_and!; [done..| |done]. apply Hfull; lia. }
  rewrite Hv. exists v. split; [done|]. rewrite Hver. split.
  - intros (r & c & Hr & Hc & E). right. right.
    exists r, c. split_and!; [done..| |done]. apply Hfull; lia.
  - intros [Hz | [(r & c & Hr & Hc & _ & E) | (r & c & Hr & Hc & _ & E)]].
    + by apply (proj2 Hempty) in Hz.
    + assert (false = true); [|done]. apply Hhor. by exists r, c.
    + by exists r, c.
Qed.
End Terminal.

(** Claim C4.  On a square board [any_moves_possible] returns, and it
    returns true exactly when some cell is empty or two horizontally or
    vertically adjacent cells hold the same non-zero value; in particular
    it returns true whenever some cell is empty. *)
Theorem any_moves_possible_iff n b :
  square n b →
  ∃ v, any_moves_possible b = Ok v
       ∧ (v = true ↔ has_empty n b ∨ has_equal_neighbours n b)
       ∧ (has_empty n b → v = true).
Proof.
  intros Hsq. destruct (any_moves_possible_ok n b Hsq) as (v & Hv & Hiff).
  exists v. split_and!; [done..|]. intros Hz. apply Hiff. by left.
Qed.

Lemma any_moves_possible_iff_witness :
  square 2 [[2; 4]; [4; 0]]%Z
  ∧ ∃ v, any_moves_possible [[2; 4]; [4; 0]]%Z = Ok v
         ∧ (v = true ↔ has_empty 2 [[2; 4]; [4; 0]]%Z
                       ∨ has_equal_neighbours 2 [[2; 4]; [4; 0]]%Z)
         ∧ (has_empty 2 [[2; 4]; [4; 0]]%Z → v = true).
Proof.
  assert (Hsq : square 2 [[2; 4]; [4; 0]]%Z)
    by (split; [reflexivity | repeat constructor]).
  split; [done|].
  exact (any_moves_possible_iff 2 _ Hsq).
Defined.

(** Claim C5.  The status shown by [draw_board] on a square board is Won
    if some cell is at least the goal; otherwise Lost if
    [any_moves_possible] is false; otherwise InProgress.  The win check
    comes first, so a board that reaches the goal and has no move left is
    Won. *)
Theorem status_win_before_loss n b goal :
  square n b →
  ∃ st movable,
    draw_board_status b goal = Ok st
    ∧ any_moves_possible b = Ok movable
    ∧ (reaches n b goal → st = Won)
    ∧ (¬ reaches n b goal → movable = false → st = Lost)
    ∧ (¬ reaches n b goal → movable = true → st = InProgress).
Proof.
  intros Hsq. destruct (any_moves_possible_ok n b Hsq) as (m & Hm & _).
  destruct (reached_goal_ok n b Hsq goal) as (g & Hg & Hgoal).
  unfold draw_board_status. rewrite Hg. cbn. destruct g.
  - exists Won, m. split_and!; try done.
    all: intros Hno; destruct Hno; by apply Hgoal.
  - rewrite Hm. cbn. assert (Hno : ¬ reaches n b goal).
    { intros Hr. by apply Hgoal in Hr. }
    destruct m; eexists _, _; split_and!; try done.
Qed.

Lemma status_win_before_loss_witness :
  square 2 [[2048; 4]; [4; 2]]%Z
  ∧ ∃ st movable,
      draw_board_status [[2048; 4]; [4; 2]]%Z 2048 = Ok st
      ∧ any_moves_possible [[2048; 4]; [4; 2]]%Z = Ok movable
      ∧ (reaches 2 [[2048; 4]; [4; 2]]%Z 2048 → st = Won)
      ∧ (¬ reaches 2 [[2048; 4]; [4; 2]]%Z 2048 → movable = false → st = Lost)
      ∧ (¬ reaches 2 [[2048; 4]; [4; 2]]%Z 2048 → movable = true
         → st = InProgress).
Proof.
  assert (Hsq : square 2 [[2048; 4]; [4; 2]]%Z)
    by (split; [reflexivity | repeat constructor]).
  split; [done|].
  exact (status_win_before_loss 2 _ 2048 Hsq).
Defined.

Example won_without_moves :
  draw_board_status [[2048; 4]; [4; 2]]%Z 2048 = Ok Won
  ∧ any_moves_possible [[2048; 4]; [4; 2]]%Z = Ok false.
Proof. split; reflexivity. Qed.

(** ** Boards with a single tile *)

Lemma tiles_of_fmap_zero (g : nat → Z) l :
  (∀ i, i ∈ l → g i = 0%Z) → spec_tiles (g <$> l) = [].
Proof.
  intros Hg. unfold spec_tiles. induction l as [|i l IH]; [done|].
  rewrite fmap_cons, filter_cons_False by (rewrite Hg by left; by intros ?).
  apply IH. intros j Hj. apply Hg. by right.
Qed.

Lemma tiles_of_unit_row n k v :
  k < n → v ≠ 0%Z → spec_tiles (unit_row n k v) = [v].
Proof.
  intros Hk Hv. unfold unit_row.
  replace n with (k + (1 + (n - k - 1))) by lia.
  rewrite !seq_app, !fmap_app. unfold spec_tiles. rewrite !filter_app.
  pose proof (tiles_of_fmap_zero
    (λ c, if bool_decide (c = k) then v else 0%Z) (seq 0 k)) as E1.
  pose proof (tiles_of_fmap_zero
    (λ c, if bool_decide (c = k) then v else 0%Z)
    (seq (0 + k + 1) (n - k - 1))) as E2.
  unfold spec_tiles in E1, E2. rewrite E1, E2.
  - cbn [seq fmap list_fmap app Nat.add]. rewrite bool_decide_eq_true_2 by done.
    by rewrite filter_cons_True.
  - intros i Hi%elem_of_seq. rewrite bool_decide_eq_false_2 by lia. done.
  - intros i Hi%elem_of_seq. rewrite bool_decide_eq_false_2 by lia. done.
Qed.

Lemma fmap_zero_replicate n j : (λ _, 0%Z) <$> seq j n = replicate n 0%Z.
Proof.
  revert j. induction n as [|n IH]; intros j; [done|].
  cbn [seq replicate]. by rewrite fmap_cons, IH.
Qed.

Lemma unit_row_head n v : 0 < n → unit_row n 0 v = v :: replicate (n - 1) 0%Z.
Proof.
  intros Hn. destruct n as [|n]; [lia|]. unfold unit_row.
  cbn [seq]. rewrite fmap_cons. f_equal.
  replace (S n - 1) with n by lia.
  rewrite <- (fmap_zero_replicate n 1). apply list_fmap_ext.
  intros i c Hc%lookup_seq. rewrite bool_decide_eq_false_2 by lia. done.
Qed.

Lemma row_result_unit_row n k v :
  k < n → v ≠ 0%Z → merge_row_left (unit_row n k v) = (unit_row n 0 v, 0%Z).
Proof.
  intros Hk Hv. rewrite merge_row_left_spec. unfold spec_mergeLeft.
  rewrite tiles_of_unit_row by done. cbn [spec_merged_tiles spec_merge_values].
  unfold unit_row at 1. rewrite length_fmap, length_seq.
  rewrite unit_row_head by lia. done.
Qed.

Lemma row_result_zero_row n :
  merge_row_left ((λ _, 0%Z) <$> seq 0 n) = ((λ _, 0%Z) <$> seq 0 n, 0%Z).
Proof.
  rewrite merge_row_left_spec. unfold spec_mergeLeft.
  rewrite tiles_of_fmap_zero by done. cbn [spec_merged_tiles spec_merge_values].
  rewrite length_fmap, length_seq. unfold spec_pad. cbn. f_equal.
  rewrite Nat.sub_0_r.
  symmetry. apply fmap_zero_replicate.
Qed.

Lemma single_tile_rows n r0 c0 v :
  single_tile n r0 c0 v
  = (λ r, if bool_decide (r = r0) then unit_row n c0 v
          else (λ _, 0%Z) <$> seq 0 n) <$> seq 0 n.
Proof.
  unfold single_tile, tabulate. apply list_fmap_ext. intros _ r _.
  destruct (decide (r = r0)) as [->|Hr].
  - rewrite bool_decide_eq_true_2 by done.
    apply list_fmap_ext. intros _ c _.
    destruct (decide (c = c0)) as [->|Hc].
    + by rewrite !bool_decide_eq_true_2.
    + by rewrite !bool_decide_eq_false_2 by (try intros [_ ?]; done).
  - rewrite bool_decide_eq_false_2 by done.
    apply list_fmap_ext. intros _ c _.
    by rewrite bool_decide_eq_false_2 by (intros [? _]; done).
Qed.

Lemma move_left_single_tile n r0 c0 v :
  r0 < n → c0 < n → v ≠ 0%Z →
  move_left (single_tile n r0 c0 v)
  = (single_tile n r0 0 v,
     bool_decide (single_tile n r0 0 v ≠ single_tile n r0 c0 v), 0%Z).
Proof.
  intros Hr Hc Hv. rewrite move_left_eq.
  assert (E : row_result <$> single_tile n r0 c0 v = single_tile n r0 0 v).
  { rewrite !single_tile_rows, <- list_fmap_compose.
    apply list_fmap_ext. intros _ r _. cbn. unfold row_result.
    case_bool_decide.
    - by rewrite row_result_unit_row.
    - by rewrite row_result_zero_row. }
  rewrite E. do 2 f_equal.
  rewrite single_tile_rows, <- list_fmap_compose.
  transitivity (row_sum ((λ _, 0%Z) <$> seq 0 n)).
  - f_equal. apply list_fmap_ext. intros _ r _. cbn. unfold row_score.
    case_bool_decide.
    + by rewrite row_result_unit_row.
    + by rewrite row_result_zero_row.
  - by rewrite fmap_zero_replicate, row_sum_zeros.
Qed.

Lemma single_tile_square n r0 c0 v : square n (single_tile n r0 c0 v).
Proof. apply tabulate_square. Qed.

Lemma single_tile_differs n r0 c0 c1 v :
  r0 < n → c0 < n → c1 < n → v ≠ 0%Z → c0 ≠ c1 →
  single_tile n r0 c0 v ≠ single_tile n r0 c1 v.
Proof.
  intros Hr Hc0 Hc1 Hv Hne E.
  assert (E2 : at_cell (single_tile n r0 c0 v) r0 c0
               = at_cell (single_tile n r0 c1 v) r0 c0) by (by rewrite E).
  unfold single_tile in E2. rewrite !at_tabulate in E2 by done.
  rewrite bool_decide_eq_true_2 in E2 by done.
  rewrite bool_decide_eq_false_2 in E2 by (intros [_ ?]; done). done.
Qed.

Lemma rot_cw_single_tile n r0 c0 v :
  r0 < n → c0 < n →
  rot_cw n (single_tile n r0 c0 v) = single_tile n c0 (n - 1 - r0) v.
Proof.
  intros Hr Hc. apply tabulate_ext. intros r c Hr' Hc'.
  unfold single_tile. rewrite at_tabulate by lia.
  destruct (decide (r = c0 ∧ c = n - 1 - r0)) as [[-> ->]|Hne].
  - rewrite !bool_decide_eq_true_2; [done| done | split; [lia|done]].
  - rewrite !bool_decide_eq_false_2; [done|done|]. intros [? ->]. apply Hne. lia.
Qed.

Lemma rot_ccw_single_tile n r0 c0 v :
  r0 < n → c0 < n →
  rot_ccw n (single_tile n r0 c0 v) = single_tile n (n - 1 - c0) r0 v.
Proof.
  intros Hr Hc. apply tabulate_ext. intros r c Hr' Hc'.
  unfold single_tile. rewrite at_tabulate by lia.
  destruct (decide (r = n - 1 - c0 ∧ c = r0)) as [[-> ->]|Hne].
  - rewrite !bool_decide_eq_true_2; [done| done | split; [done|lia]].
  - rewrite !bool_decide_eq_false_2; [done|done|]. intros [-> ?]. apply Hne. lia.
Qed.

(** Claim C9.  On the board of side [n] ≥ 2 whose only tile is in the top
    row, at column [c], [move_up] returns changed = true and the board whose
    only tile is in the last row, at column [c]; symmetrically [move_down]
    brings a tile of the last row to row 0. *)
Theorem move_up_slides_to_last_row n c v :
  2 ≤ n → c < n → v ≠ 0%Z →
  move_up (single_tile n 0 c v) = Ok (single_tile n (n - 1) c v, true, 0%Z)
  ∧ move_down (single_tile n (n - 1) c v) = Ok (single_tile n 0 c v, true, 0%Z).
Proof.
  intros Hn Hc Hv. split.
  - unfold move_up.
    rewrite (rotate_cw_ok n) by apply single_tile_square. cbn.
    fold (rot_cw n (single_tile n 0 c v)).
    rewrite rot_cw_single_tile, move_left_single_tile by lia.
    rewrite (rotate_ccw_ok n) by apply single_tile_square. cbn.
    fold (rot_ccw n (single_tile n c 0 v)).
    rewrite rot_ccw_single_tile by lia.
    rewrite bool_decide_eq_true_2 by (apply single_tile_differs; lia).
    do 4 f_equal. lia.
  - unfold move_down.
    rewrite (rotate_ccw_ok n) by apply single_tile_square. cbn.
    fold (rot_ccw n (single_tile n (n - 1) c v)).
    rewrite rot_ccw_single_tile, move_left_single_tile by lia.
    rewrite (rotate_cw_ok n) by apply single_tile_square. cbn.
    fold (rot_cw n (single_tile n (n - 1 - c) 0 v)).
    rewrite rot_cw_single_tile by lia.
    rewrite bool_decide_eq_true_2 by (apply single_tile_differs; lia).
    do 4 f_equal; lia.
Qed.

Lemma move_up_slides_to_last_row_witness :
  2 ≤ 3 ∧ 1 < 3 ∧ 2%Z ≠ 0%Z
  ∧ move_up (single_tile 3 0 1 2) = Ok (single_tile 3 (3 - 1) 1 2, true, 0%Z)
  ∧ move_down (single_tile 3 (3 - 1) 1 2) = Ok (single_tile 3 0 1 2, true, 0%Z).
Proof.
  assert (H2 : 2 ≤ 3) by lia.
  assert (H1 : 1 < 3) by lia.
  assert (Hv : 2%Z ≠ 0%Z) by lia.
  split_and!; [done..| |]; apply (move_up_slides_to_last_row 3 1 2 H2 H1 Hv).
Defined.

(** ** Spawning and the session *)

Section Controller.
Context {W : Type} `{RandomModule W}.

(** Claim C8.  When the move for the requested direction returns
    changed = false, [perform_move] leaves the session as it was, board and
    score, and draws nothing from the random generator: no tile is
    spawned. *)
Theorem unchanged_move_is_noop (self : GameUI) d (w : W) b' s :
  apply_move (ui_board self) d = Ok (b', false, s) →
  perform_move self d w = (Ok (), self, w).
Proof. intros Hmove. unfold perform_move. by rewrite Hmove. Qed.

Lemma io_bind_eq {A B} (m : io W A) (f : A → io W B) (w : W) :
  (m ≫= f) w
  = match m w with
    | (Ok a, w') => f a w'
    | (Raise e, w') => (Raise e, w')
    end.
Proof. done. Qed.

Lemma add_random_tile_full b rnd (w : W) :
  get_empty_positions b = Ok [] →
  add_random_tile b rnd w = (Ok (b, None), w).
Proof. intros He. unfold add_random_tile. rewrite io_bind_eq. unfold lift. by rewrite He. Qed.

Lemma init_game_nonpositive size rnd (w : W) :
  (size ≤ 0)%Z → init_game size rnd w = (Ok ([], 0%Z), w).
Proof.
  intros Hsize. unfold init_game, empty_board.
  replace (Z.to_nat size) with 0 by lia. cbn [replicate].
  rewrite io_bind_eq, add_random_tile_full by done. cbv beta iota.
  by rewrite io_bind_eq, add_random_tile_full by done.
Qed.

Lemma add_random_tile_one rnd (w : W) :
  ∃ v w', add_random_tile [[0%Z]] rnd w = (Ok ([[v]], Some (0, 0, v)), w')
          ∧ (v = 2%Z ∨ v = 4%Z).
Proof.
  assert (E : get_empty_positions [[0%Z]] = Ok [(0, 0)]) by done.
  unfold add_random_tile. rewrite io_bind_eq. unfold lift. rewrite E.
  cbv beta iota. rewrite bool_decide_eq_false_2 by done.
  rewrite io_bind_eq. unfold random_choice.
  rewrite bool_decide_eq_false_2 by done. cbn [length].
  pose proof (randbelow_lt w 1 ltac:(lia)) as Hk.
  destruct (randbelow w 1) as [k w1]. cbn [fst] in Hk.
  replace k with 0 by lia.
  change ([(0, 0)] !! 0) with (Some (0, 0)). cbv beta iota.
  rewrite io_bind_eq. unfold call. destruct (rnd w1) as [x w2].
  cbv beta iota. rewrite io_bind_eq.
  set (v := if PrimFloat.ltb x one_tenth then 4%Z else 2%Z).
  exists v, w2. split; [done|].
  unfold v. destruct (PrimFloat.ltb x one_tenth); auto.
Qed.

Lemma init_game_one rnd (w : W) :
  ∃ v w', init_game 1 rnd w = (Ok ([[v]], 0%Z), w') ∧ (v = 2%Z ∨ v = 4%Z).
Proof.
  destruct (add_random_tile_one rnd w) as (v & w' & E & Hv).
  exists v, w'. split; [|done].
  unfold init_game. change (empty_board 1) with [[0%Z]].
  rewrite io_bind_eq, E. cbv beta iota.
  rewrite io_bind_eq, add_random_tile_full; [done|].
  destruct Hv as [-> | ->]; done.
Qed.

(** Claim C7, as amended.  [init_game] does not validate the size: for
    every size below 2 it raises nothing and returns score 0 with a board
    of that side, the empty board for a size of 0 or less and, for size 1,
    the single cell holding the spawned 2 or 4.  The size is neither
    rejected nor replaced by a default. *)
Theorem init_game_accepts_small_sizes size rnd (w : W) :
  (size < 2)%Z →
  ∃ b w', init_game size rnd w = (Ok (b, 0%Z), w')
          ∧ square (Z.to_nat size) b
          ∧ ((size ≤ 0)%Z → b = [])
          ∧ (size = 1%Z → b = [[2%Z]] ∨ b = [[4%Z]]).
Proof.
  intros Hsize. destruct (decide (size ≤ 0)%Z) as [Hle|Hgt].
  - exists [], w. rewrite init_game_nonpositive by done.
    split_and!; [done| |done|lia].
    replace (Z.to_nat size) with 0 by lia. by split.
  - assert (size = 1%Z) as -> by lia.
    destruct (init_game_one rnd w) as (v & w' & -> & Hv).
    exists [[v]], w'. split_and!; [done| |lia|].
    + split; [done|]. by repeat constructor.
    + intros _. destruct Hv as [-> | ->]; auto.
Qed.
End Controller.

Lemma unchanged_move_is_noop_witness :
  apply_move (ui_board packed_session) "left"
  = Ok ([[2; 0]; [4; 0]]%Z, false, 0%Z)
  ∧ perform_move packed_session "left" 5%nat = (Ok (), packed_session, 5%nat).
Proof.
  assert (Hm : apply_move (ui_board packed_session) "left"
               = Ok ([[2; 0]; [4; 0]]%Z, false, 0%Z)) by reflexivity.
  split; [done|].
  exact (unchanged_move_is_noop packed_session "left" 5%nat _ _ Hm).
Defined.

(** Claim C7 as stated fails: size 1 is accepted and a board is built. *)
Lemma init_game_size_one_returns :
  (1 < 2)%Z
  ∧ init_game 1 constant_half 0%nat = (Ok ([[2]]%Z, 0%Z), 1%nat)
  ∧ ¬ ∃ e w', init_game 1 constant_half 0%nat = (Raise e, w').
Proof.
  split_and!; [done | reflexivity |].
  intros (e & w' & E). change (init_game 1 constant_half 0%nat)
    with (Ok ([[2]]%Z, 0%Z) : res (board * Z), 1%nat) in E. discriminate E.
Qed.

Lemma init_game_accepts_small_sizes_witness :
  (1 < 2)%Z
  ∧ ∃ b w', init_game 1 constant_half 0%nat = (Ok (b, 0%Z), w')
            ∧ square (Z.to_nat 1) b
            ∧ ((1 ≤ 0)%Z → b = [])
            ∧ (1%Z = 1%Z → b = [[2%Z]] ∨ b = [[4%Z]]).
Proof.
  assert (H1 : (1 < 2)%Z) by lia.
  split; [done|].
  exact (init_game_accepts_small_sizes 1 constant_half 0%nat H1).
Defined.

(** Claim C6 fails on the code.  The cell is chosen by [random.choice],
    which draws from the generator of the [random] module and not from
    the injected [rnd]: the same board and the same injected source give
    two placements when the hidden generator is in two states. *)
Theorem add_random_tile_reads_hidden_generator :
  add_random_tile [[0; 0]; [0; 0]]%Z constant_half 0%nat
  = (Ok ([[2; 0]; [0; 0]]%Z, Some (0, 0, 2%Z)), 1%nat)
  ∧ add_random_tile [[0; 0]; [0; 0]]%Z constant_half 1%nat
    = (Ok ([[0; 2]; [0; 0]]%Z, Some (0, 1, 2%Z)), 2%nat).
Proof. split; reflexivity. Qed.

(** * Further properties of the code *)

(** ** Rows *)

Lemma merged_tiles_nonzero tiles :
  Forall (λ x, x ≠ 0%Z) tiles → Forall (λ x, x ≠ 0%Z) (spec_merged_tiles tiles).
Proof.
  induction tiles as [| x | x y t IHt IHyt] using tiles_ind; intros Hnz;
    [done..|].
  apply Forall_cons in Hnz as [Hx Hyt].
  pose proof Hyt as Hyt2. apply Forall_cons in Hyt2 as [Hy Ht].
  rewrite spec_merged_tiles_pair. case_bool_decide.
  - constructor; [lia|by apply IHt].
  - constructor; [done|by apply IHyt].
Qed.

Lemma merged_tiles_length tiles :
  length (spec_merged_tiles tiles) + length (spec_merge_values tiles)
  = length tiles.
Proof.
  induction tiles as [| x | x y t IHt IHyt] using tiles_ind; [done..|].
  rewrite spec_merged_tiles_pair, spec_merge_values_pair.
  case_bool_decide; cbn [length] in *; lia.
Qed.

Lemma merge_values_nil_iff tiles :
  spec_merge_values tiles = [] ↔ no_equal_neighbours tiles.
Proof.
  induction tiles as [| x | x y t IHt IHyt] using tiles_ind.
  - split; [|done]. intros _ i x y Hx. done.
  - split; [|done]. intros _ [|i] a b Ha Hb; done.
  - rewrite spec_merge_values_pair. case_bool_decide as Hxy.
    + split; [done|]. intros Hno. by destruct (Hno 0 x y).
    + rewrite IHyt. split.
      * intros Hno [|i] a b Ha Hb.
        -- cbn in Ha, Hb. by simplify_eq.
        -- by apply (Hno i).
      * intros Hno i a b Ha Hb. by apply (Hno (S i)).
Qed.

Lemma tiles_of_packed len tiles :
  Forall (λ x, x ≠ 0%Z) tiles → left_packed (spec_pad len tiles).
Proof.
  intros Hnz i j Hij Hi Hj. unfold spec_pad in *.
  destruct (decide (i < length tiles)) as [Hlt|Hge].
  - rewrite lookup_app_l in Hi by done.
    by pose proof (proj1 (Forall_lookup _ _) Hnz _ _ Hi).
  - rewrite lookup_app_r by lia. apply lookup_replicate_2.
    rewrite length_app, length_replicate in Hj. lia.
Qed.

Lemma left_packed_tail x row : left_packed (x :: row) → left_packed row.
Proof.
  intros Hp i j Hij Hi Hj. apply (Hp (S i) (S j)); [lia|done|]. cbn. lia.
Qed.

Lemma left_packed_compress row :
  left_packed row → compress_row_left row = row.
Proof.
  rewrite compress_row_left_pad. unfold spec_pad, spec_tiles.
  induction row as [|x row IH]; intros Hp; [done|].
  destruct (decide (x = 0%Z)) as [->|Hx].
  - assert (Hz : row = replicate (length row) 0%Z).
    { apply list_eq. intros j. destruct (decide (j < length row)) as [Hj|Hj].
      - rewrite lookup_replicate_2 by done.
        apply (Hp 0 (S j)); [lia|done|]. cbn. lia.
      - rewrite !lookup_ge_None_2; [done|rewrite length_replicate|]; lia. }
    assert (Ht : filter (λ x, x ≠ 0%Z) row = []).
    { rewrite Hz. apply tiles_of_zeros. }
    rewrite filter_cons_False by (by intros ?).
    rewrite Ht. cbn [app length]. rewrite Nat.sub_0_r.
    cbn [replicate]. by rewrite <- Hz.
  - rewrite filter_cons_True by done. cbn [app length]. f_equal.
    apply IH. by eapply left_packed_tail.
Qed.

Lemma row_result_pad row :
  row_result row
  = spec_pad (length row) (spec_merged_tiles (spec_tiles row)).
Proof. unfold row_result. by rewrite merge_row_left_spec. Qed.

Lemma tiles_of_row_result row :
  spec_tiles (row_result row) = spec_merged_tiles (spec_tiles row).
Proof.
  rewrite row_result_pad.
  apply tiles_of_pad, merged_tiles_nonzero, tiles_nonzero.
Qed.

Lemma row_result_fixed_iff row :
  row_result row = row
  ↔ left_packed row ∧ no_equal_neighbours (spec_tiles row).
Proof.
  split.
  - intros E. split.
    + rewrite <- E, row_result_pad.
      apply tiles_of_packed, merged_tiles_nonzero, tiles_nonzero.
    + apply merge_values_nil_iff.
      pose proof (tiles_of_row_result row) as Et. rewrite E in Et.
      pose proof (merged_tiles_length (spec_tiles row)) as Hlen.
      rewrite <- Et in Hlen.
      destruct (spec_merge_values (spec_tiles row)); [done|]. cbn in Hlen. lia.
  - intros [Hp Hno]. apply merge_values_nil_iff in Hno.
    rewrite row_result_pad, merged_tiles_no_merge by done.
    rewrite <- compress_row_left_pad. by apply left_packed_compress.
Qed.

Lemma row_score_fixed row : row_result row = row → row_score row = 0%Z.
Proof.
  intros E. apply row_result_fixed_iff in E as [_ Hno].
  apply merge_values_nil_iff in Hno.
  unfold row_score. rewrite merge_row_left_spec. cbn. by rewrite Hno.
Qed.

(** X1.  [compress_row_left] keeps the length of the row and its non-zero
    values in their order, returns a row packed to the left, and
    compressing a second time changes nothing. *)
Theorem compress_row_left_idempotent (row : list Z) :
  length (compress_row_left row) = length row
  ∧ filter (λ x, x ≠ 0%Z) (compress_row_left row) = filter (λ x, x ≠ 0%Z) row
  ∧ left_packed (compress_row_left row)
  ∧ compress_row_left (compress_row_left row) = compress_row_left row.
Proof.
  assert (Hp : left_packed (compress_row_left row)).
  { rewrite compress_row_left_pad. apply tiles_of_packed, tiles_nonzero. }
  split_and!; [apply compress_row_left_length| |done|by apply left_packed_compress].
  rewrite compress_row_left_pad. apply (tiles_of_pad _ _ (tiles_nonzero row)).
Qed.

(** X2.  The row returned by [merge_row_left] has the length of the input,
    is packed to the left, and holds one tile less for each merge. *)
Theorem merge_row_left_shape (row : list Z) :
  length (merge_row_left row).1 = length row
  ∧ left_packed (merge_row_left row).1
  ∧ length (filter (λ x, x ≠ 0%Z) (merge_row_left row).1)
    + length (spec_merge_values (filter (λ x, x ≠ 0%Z) row))
    = length (filter (λ x, x ≠ 0%Z) row).
Proof.
  fold (row_result row). fold (spec_tiles row) (spec_tiles (row_result row)).
  split_and!.
  - apply row_result_length.
  - rewrite row_result_pad.
    apply tiles_of_packed, merged_tiles_nonzero, tiles_nonzero.
  - rewrite tiles_of_row_result. apply merged_tiles_length.
Qed.

(** X3.  [merge_row_left] returns its input unchanged exactly when the row
    is packed to the left and no two neighbouring tiles are equal; the
    score is then 0. *)
Theorem merge_row_left_fixed_iff (row : list Z) :
  ((merge_row_left row).1 = row
   ↔ left_packed row ∧ no_equal_neighbours (filter (λ x, x ≠ 0%Z) row))
  ∧ ((merge_row_left row).1 = row → (merge_row_left row).2 = 0%Z).
Proof.
  split; [apply row_result_fixed_iff|apply row_score_fixed].
Qed.

(** ** Directions as rearrangements of the cells *)

Lemma at_cell_lookup b r c row v :
  b !! r = Some row → row !! c = Some v → at_cell b r c = v.
Proof. intros Hr Hc. unfold at_cell, cell. by rewrite Hr, Hc. Qed.

Lemma square_lookup n b r c :
  square n b → r < n → c < n →
  ∃ row, b !! r = Some row ∧ length row = n ∧ row !! c = Some (at_cell b r c).
Proof.
  intros Hsq Hr Hc. destruct (square_row n b r Hsq Hr) as (row & Hrow & Hlen).
  destruct (lookup_lt_is_Some_2 row c) as [v Hv]; [lia|].
  exists row. split_and!; [done..|]. by rewrite (at_cell_lookup b r c row v).
Qed.

Lemma at_cell_mirror n b r c :
  square n b → r < n → c < n →
  at_cell (mirror b) r c = at_cell b r (n - 1 - c).
Proof.
  intros Hsq Hr Hc.
  destruct (square_lookup n b r (n - 1 - c) Hsq Hr) as (row & Hrow & Hlen & Hv);
    [lia|].
  apply (at_cell_lookup _ _ _ (reverse row)).
  - unfold mirror. by rewrite list_lookup_fmap, Hrow.
  - rewrite reverse_lookup by lia. rewrite <- Hv. f_equal. lia.
Qed.

Lemma relabels_id n : relabels n id (λ r c, (r, c)).
Proof. intros x r c _ Hr Hc. done. Qed.

Lemma relabels_mirror n : relabels n mirror (λ r c, (r, n - 1 - c)).
Proof.
  intros x r c Hsq Hr Hc. cbn. split_and!; [done|lia|].
  by apply at_cell_mirror.
Qed.

Lemma relabels_rot_cw n : relabels n (rot_cw n) (λ r c, (n - 1 - c, r)).
Proof.
  intros x r c Hsq Hr Hc. cbn. split_and!; [lia|done|].
  unfold rot_cw. by rewrite at_tabulate.
Qed.

Lemma relabels_rot_ccw n : relabels n (rot_ccw n) (λ r c, (c, n - 1 - r)).
Proof.
  intros x r c Hsq Hr Hc. cbn. split_and!; [done|lia|].
  unfold rot_ccw. by rewrite at_tabulate.
Qed.

(** Every direction is the left move seen through a rearrangement of the
    cells that sends neighbours in a row to neighbours on the board. *)
Lemma apply_move_view n d :
  is_direction d →
  ∃ (fwd bwd : board → board) (pf pb : nat → nat → nat * nat),
    (∀ x, square n x → square n (fwd x) ∧ bwd (fwd x) = x) ∧
    (∀ x, square n x → square n (bwd x) ∧ fwd (bwd x) = x) ∧
    (∀ b, square n b →
       apply_move b d
       = Ok (bwd (row_result <$> fwd b),
             bool_decide (row_result <$> fwd b ≠ fwd b),
             row_sum (row_score <$> fwd b))) ∧
    relabels n fwd pf ∧ relabels n bwd pb ∧
    (∀ r c, r < n → c + 1 < n → adjacent_pos (pf r c) (pf r (c + 1))).
Proof.
  intros [-> | [-> | [-> | ->]]].
  - exists id, id, (λ r c, (r, c)), (λ r c, (r, c)).
    split_and!; [done..| |apply relabels_id|apply relabels_id|].
    + intros b _. by rewrite apply_move_left, move_left_eq.
    + intros r c Hr Hc. left. cbn. auto.
  - exists mirror, mirror, (λ r c, (r, n - 1 - c)), (λ r c, (r, n - 1 - c)).
    split_and!; [| | |apply relabels_mirror|apply relabels_mirror|].
    1,2: intros x Hx; split; auto using mirror_square, mirror_mirror.
    + intros b _. by rewrite apply_move_right, move_right_eq.
    + intros r c Hr Hc. left. cbn. split; [done|]. right. lia.
  - exists (rot_cw n), (rot_ccw n), (λ r c, (n - 1 - c, r)), (λ r c, (c, n - 1 - r)).
    split_and!; [| | |apply relabels_rot_cw|apply relabels_rot_ccw|].
    1,2: intros x Hx; split;
      [apply tabulate_square|auto using rot_cw_ccw, rot_ccw_cw].
    + intros b Hsq. by rewrite apply_move_up, (move_up_eq n).
    + intros r c Hr Hc. right. cbn. split; [done|]. right. lia.
  - exists (rot_ccw n), (rot_cw n), (λ r c, (c, n - 1 - r)), (λ r c, (n - 1 - c, r)).
    split_and!; [| | |apply relabels_rot_ccw|apply relabels_rot_cw|].
    1,2: intros x Hx; split;
      [apply tabulate_square|auto using rot_cw_ccw, rot_ccw_cw].
    + intros b Hsq. by rewrite apply_move_down, (move_down_eq n).
    + intros r c Hr Hc. right. cbn. split; [done|]. left. lia.
Qed.

Lemma relabels_all_cells n f p P x :
  relabels n f p → square n x → all_cells n P x → all_cells n P (f x).
Proof.
  intros Hf Hsq Hall r c Hr Hc.
  destruct (Hf x r c Hsq Hr Hc) as (Hr' & Hc' & ->). by apply Hall.
Qed.

Lemma all_cells_rows n P b :
  square n b → all_cells n P b ↔ Forall (Forall P) b.
Proof.
  intros Hsq. split.
  - intros Hall. apply Forall_lookup. intros r row Hrow.
    apply Forall_lookup. intros c v Hv.
    pose proof (lookup_lt_Some _ _ _ Hrow) as Hr.
    pose proof (lookup_lt_Some _ _ _ Hv) as Hc.
    destruct Hsq as [Hlen Hrows].
    pose proof (proj1 (Forall_lookup _ _) Hrows _ _ Hrow) as Hl. cbn in Hl.
    rewrite <- (at_cell_lookup b r c row v) by done. apply Hall; lia.
  - intros Hall r c Hr Hc.
    destruct (square_lookup n b r c Hsq Hr Hc) as (row & Hrow & _ & Hv).
    eapply (proj1 (Forall_lookup _ _)); [|exact Hv].
    by eapply (proj1 (Forall_lookup _ _) Hall).
Qed.

(** ** Moves: shape, score and tile values *)

Lemma merged_tiles_Forall (P : Z → Prop) tiles :
  (∀ x, P x → P (2 * x)%Z) → Forall P tiles → Forall P (spec_merged_tiles tiles).
Proof.
  intros Hdouble.
  induction tiles as [| x | x y t IHt IHyt] using tiles_ind; intros HP;
    [done..|].
  apply Forall_cons in HP as [Hx Hyt].
  pose proof Hyt as Hyt2. apply Forall_cons in Hyt2 as [Hy Ht].
  rewrite spec_merged_tiles_pair. case_bool_decide; constructor; auto.
Qed.

Lemma row_result_Forall (P : Z → Prop) row :
  P 0%Z → (∀ x, P x → P (2 * x)%Z) → Forall P row → Forall P (row_result row).
Proof.
  intros H0 Hdouble HP. rewrite row_result_pad. unfold spec_pad.
  apply Forall_app. split.
  - apply merged_tiles_Forall; [done|]. apply Forall_forall. intros x Hx.
    apply list_elem_of_filter in Hx as [_ Hin].
    by apply (proj1 (Forall_forall _ _) HP).
  - by apply Forall_replicate.
Qed.

Lemma tile_value_double x : tile_value x → tile_value (2 * x)%Z.
Proof.
  intros [-> | [k ->]]; [by left|]. right. exists (S k).
  rewrite (Nat2Z.inj_succ (S k)), Z.pow_succ_r by lia. done.
Qed.

Lemma apply_move_all_cells n (P : Z → Prop) b d b' changed s :
  P 0%Z → (∀ x, P x → P (2 * x)%Z) →
  square n b → is_direction d → apply_move b d = Ok (b', changed, s) →
  all_cells n P b → all_cells n P b'.
Proof.
  intros H0 Hdouble Hsq Hd Hmove Hall.
  destruct (apply_move_view n d Hd)
    as (fwd & bwd & pf & pb & Hfwd & Hbwd & Heq & Hpf & Hpb & _).
  rewrite Heq in Hmove by done. injection Hmove as <- _ _.
  destruct (Hfwd b Hsq) as [Hsqf _].
  pose proof (fmap_result_square n _ Hsqf) as Hsqm.
  apply (relabels_all_cells n bwd pb); [done..|].
  apply all_cells_rows; [done|]. apply Forall_fmap.
  pose proof (relabels_all_cells n fwd pf P b Hpf Hsq Hall) as Hallf.
  apply all_cells_rows in Hallf; [|done].
  eapply Forall_impl; [exact Hallf|]. intros row Hrow. cbn.
  by apply row_result_Forall.
Qed.

Lemma board_score_nonneg rows :
  Forall (Forall (λ v, 0 ≤ v)%Z) rows → (0 ≤ row_sum (row_score <$> rows))%Z.
Proof.
  induction 1 as [|row rows Hrow _ IH]; [done|].
  rewrite fmap_cons, row_sum_cons.
  pose proof (row_score_nonneg row Hrow). lia.
Qed.

Lemma apply_move_square n b d b' changed s :
  square n b → is_direction d → apply_move b d = Ok (b', changed, s) →
  square n b'.
Proof.
  intros Hsq Hd Hmove.
  destruct (apply_move_view n d Hd)
    as (fwd & bwd & pf & pb & Hfwd & Hbwd & Heq & _).
  rewrite Heq in Hmove by done. injection Hmove as <- _ _.
  destruct (Hfwd b Hsq) as [Hsqf _].
  by destruct (Hbwd _ (fmap_result_square n _ Hsqf)).
Qed.

Lemma apply_move_score_nonneg n b d b' changed s :
  square n b → is_direction d → apply_move b d = Ok (b', changed, s) →
  all_cells n (λ v, 0 ≤ v)%Z b → (0 ≤ s)%Z.
Proof.
  intros Hsq Hd Hmove Hnn.
  destruct (apply_move_view n d Hd)
    as (fwd & bwd & pf & pb & Hfwd & Hbwd & Heq & Hpf & _).
  rewrite Heq in Hmove by done. injection Hmove as _ _ <-.
  destruct (Hfwd b Hsq) as [Hsqf _].
  pose proof (relabels_all_cells n fwd pf _ b Hpf Hsq Hnn) as Hnnf.
  apply all_cells_rows in Hnnf; [|done].
  by apply board_score_nonneg.
Qed.

(** X4.  A directional move on a square board returns a square board of
    the same side; when no cell is negative, the score gained is not
    negative and no cell of the result is. *)
Theorem apply_move_shape_and_score n b d b' changed s :
  square n b → is_direction d → apply_move b d = Ok (b', changed, s) →
  square n b'
  ∧ (all_cells n (λ v, 0 ≤ v)%Z b → (0 ≤ s)%Z ∧ all_cells n (λ v, 0 ≤ v)%Z b').
Proof.
  intros Hsq Hd Hmove. split; [by eapply apply_move_square|].
  intros Hnn. split; [by eapply apply_move_score_nonneg|].
  eapply (apply_move_all_cells n (λ v, 0 ≤ v)%Z);
    [simpl; lia|simpl; intros; lia|done..].
Qed.

Lemma apply_move_shape_and_score_witness :
  square 2 [[2; 2]; [0; 4]]%Z ∧ is_direction "right"
  ∧ apply_move [[2; 2]; [0; 4]]%Z "right" = Ok ([[0; 4]; [0; 4]]%Z, true, 4%Z)
  ∧ square 2 [[0; 4]; [0; 4]]%Z
  ∧ (all_cells 2 (λ v, 0 ≤ v)%Z [[2; 2]; [0; 4]]%Z
     → (0 ≤ 4)%Z ∧ all_cells 2 (λ v, 0 ≤ v)%Z [[0; 4]; [0; 4]]%Z).
Proof.
  assert (Hsq : square 2 [[2; 2]; [0; 4]]%Z)
    by (split; [reflexivity | repeat constructor]).
  assert (Hd : is_direction "right") by (right; left; reflexivity).
  assert (Hm : apply_move [[2; 2]; [0; 4]]%Z "right"
               = Ok ([[0; 4]; [0; 4]]%Z, true, 4%Z)) by reflexivity.
  split_and!; [done..| |];
    apply (apply_move_shape_and_score 2 _ "right" _ true 4%Z Hsq Hd Hm).
Defined.

(** X5.  A directional move keeps the cell values of the game: when every
    cell of a square board is empty or a power of two from 2 on, so is
    every cell of the board the move returns. *)
Theorem apply_move_keeps_tile_values n b d b' changed s :
  square n b → is_direction d → apply_move b d = Ok (b', changed, s) →
  all_cells n tile_value b → all_cells n tile_value b'.
Proof.
  apply apply_move_all_cells; [by left|apply tile_value_double].
Qed.

Lemma tile_value_examples : tile_value 0 ∧ tile_value 2 ∧ tile_value 4.
Proof. split_and!; [by left|right; by exists 0|right; by exists 1]. Qed.

Lemma apply_move_keeps_tile_values_witness :
  square 2 [[2; 2]; [0; 4]]%Z ∧ is_direction "left"
  ∧ apply_move [[2; 2]; [0; 4]]%Z "left" = Ok ([[4; 0]; [4; 0]]%Z, true, 4%Z)
  ∧ all_cells 2 tile_value [[2; 2]; [0; 4]]%Z
  ∧ all_cells 2 tile_value [[4; 0]; [4; 0]]%Z.
Proof.
  assert (Hsq : square 2 [[2; 2]; [0; 4]]%Z)
    by (split; [reflexivity | repeat constructor]).
  assert (Hd : is_direction "left") by (left; reflexivity).
  assert (Hm : apply_move [[2; 2]; [0; 4]]%Z "left"
               = Ok ([[4; 0]; [4; 0]]%Z, true, 4%Z)) by reflexivity.
  assert (Hall : all_cells 2 tile_value [[2; 2]; [0; 4]]%Z).
  { intros [|[|r]] [|[|c]] Hr Hc; try lia; cbn; apply tile_value_examples. }
  split_and!; [done..|].
  exact (apply_move_keeps_tile_values 2 _ "left" _ true 4%Z Hsq Hd Hm Hall).
Defined.

(** ** Moves and the end of the game *)

Lemma tiles_of_nonzero row :
  Forall (λ x, x ≠ 0%Z) row → spec_tiles row = row.
Proof.
  unfold spec_tiles. induction 1 as [|x row Hx _ IH]; [done|].
  by rewrite filter_cons_True, IH.
Qed.

Lemma row_result_changed_zero row :
  row_result row ≠ row → ∃ i, i < length row ∧ row_result row !! i = Some 0%Z.
Proof.
  intros Hne.
  assert (Hlt : length (spec_merged_tiles (spec_tiles row)) < length row).
  { pose proof (merged_tiles_length (spec_tiles row)) as Hm.
    pose proof (tiles_length row) as Ht.
    destruct (decide (length (spec_merged_tiles (spec_tiles row)) < length row))
      as [|Hge]; [done|]. exfalso. apply Hne.
    assert (Hv : spec_merge_values (spec_tiles row) = []).
    { destruct (spec_merge_values (spec_tiles row)); [done|]. cbn in Hm. lia. }
    assert (Hall : Forall (λ x, x ≠ 0%Z) row).
    { apply Forall_forall. intros x Hx Hz. subst x.
      pose proof (length_filter_lt (λ x, x ≠ 0%Z) row 0%Z Hx) as Hl.
      unfold spec_tiles in *. rewrite Hv in Hm. cbn in Hm.
      assert (length (filter (λ x : Z, x ≠ 0%Z) row) < length row)
        by (apply Hl; by intros ?).
      lia. }
    rewrite row_result_pad, merged_tiles_no_merge by done.
    rewrite tiles_of_nonzero by done. unfold spec_pad.
    by rewrite Nat.sub_diag, app_nil_r. }
  exists (length (spec_merged_tiles (spec_tiles row))). split; [done|].
  rewrite row_result_pad. unfold spec_pad.
  rewrite lookup_app_r by lia. apply lookup_replicate_2. lia.
Qed.

Lemma fmap_changed_row {A} `{EqDecision A} (f : A → A) (l : list A) :
  f <$> l ≠ l → ∃ i x, l !! i = Some x ∧ f x ≠ x.
Proof.
  induction l as [|x l IH]; [done|]. rewrite fmap_cons. intros Hne.
  destruct (decide (f x = x)) as [E|E].
  - destruct IH as (i & y & Hi & Hy); [intros E2; apply Hne; by rewrite E, E2|].
    by exists (S i), y.
  - by exists 0, x.
Qed.

Lemma fmap_unchanged {A} (f : A → A) (l : list A) :
  (∀ i x, l !! i = Some x → f x = x) → f <$> l = l.
Proof.
  intros Hf. rewrite <- (list_fmap_id l) at 2. apply list_fmap_ext.
  intros i x Hx. by apply (Hf i).
Qed.

Lemma changed_leaves_empty n b d b' s :
  square n b → is_direction d → apply_move b d = Ok (b', true, s) →
  has_empty n b'.
Proof.
  intros Hsq Hd Hmove.
  destruct (apply_move_view n d Hd)
    as (fwd & bwd & pf & pb & Hfwd & Hbwd & Heq & Hpf & Hpb & _).
  rewrite Heq in Hmove by done. injection Hmove as <- Hch _.
  apply bool_decide_eq_true in Hch.
  destruct (Hfwd b Hsq) as [Hsqf _].
  pose proof (fmap_result_square n _ Hsqf) as Hsqm.
  destruct (Hbwd _ Hsqm) as [Hsqb Hfb].
  apply fmap_changed_row in Hch as (r & row & Hrow & Hne).
  apply row_result_changed_zero in Hne as (c & Hc & Hz).
  pose proof (lookup_lt_Some _ _ _ Hrow) as Hr.
  destruct Hsqf as [Hlenf Hrowsf].
  pose proof (proj1 (Forall_lookup _ _) Hrowsf _ _ Hrow) as Hl. cbn in Hl.
  assert (Hcell : at_cell (row_result <$> fwd b) r c = 0%Z).
  { apply (at_cell_lookup _ _ _ (row_result row)); [|done].
    by rewrite list_lookup_fmap, Hrow. }
  rewrite <- Hfb in Hcell.
  destruct (Hpf (bwd (row_result <$> fwd b)) r c) as (Hr' & Hc' & E);
    [done|lia|lia|].
  rewrite E in Hcell. eexists _, _. split_and!; [exact Hr'|exact Hc'|exact Hcell].
Qed.

(** X6.  A directional move that changes a square board leaves at least
    one empty cell on the board it returns, so the tile added after a
    successful move always finds a place. *)
Theorem changed_move_leaves_empty_cell n b d b' s :
  square n b → is_direction d → apply_move b d = Ok (b', true, s) →
  has_empty n b'.
Proof. apply changed_leaves_empty. Qed.


Lemma changed_move_leaves_empty_cell_witness :
  square 2 [[2; 4]; [4; 4]]%Z ∧ is_direction "up"
  ∧ apply_move [[2; 4]; [4; 4]]%Z "up" = Ok ([[2; 0]; [4; 8]]%Z, true, 8%Z)
  ∧ has_empty 2 [[2; 0]; [4; 8]]%Z.
Proof.
  assert (Hsq : square 2 [[2; 4]; [4; 4]]%Z)
    by (split; [reflexivity | repeat constructor]).
  assert (Hd : is_direction "up") by (right; right; left; reflexivity).
  assert (Hm : apply_move [[2; 4]; [4; 4]]%Z "up"
               = Ok ([[2; 0]; [4; 8]]%Z, true, 8%Z)) by reflexivity.
  split_and!; [done..|].
  exact (changed_move_leaves_empty_cell 2 _ "up" _ 8%Z Hsq Hd Hm).
Defined.

Lemma adjacent_equal_neighbours n b p q :
  p.1 < n → p.2 < n → q.1 < n → q.2 < n → adjacent_pos p q →
  at_cell b p.1 p.2 ≠ 0%Z → at_cell b p.1 p.2 = at_cell b q.1 q.2 →
  has_equal_neighbours n b.
Proof.
  destruct p as [pr pc], q as [qr qc]. unfold adjacent_pos. cbn.
  intros Hpr Hpc Hqr Hqc [[-> [<- | <-]] | [-> [<- | <-]]] Hnz E.
  - left. exists qr, pc. split_and!; [done|lia|done|]. by rewrite E.
  - left. exists qr, qc. split_and!; [done|lia| |by rewrite E].
    by rewrite <- E.
  - right. exists pr, qc. split_and!; [lia|done|done|by rewrite E].
  - right. exists qr, qc. split_and!; [lia|done| |by rewrite E].
    by rewrite <- E.
Qed.

(** X7.  When [any_moves_possible] returns false on a square board, the
    game is stuck: each of the four moves returns the board itself, with
    changed = false and score 0. *)
Theorem no_moves_possible_is_stuck n b d :
  square n b → is_direction d → any_moves_possible b = Ok false →
  apply_move b d = Ok (b, false, 0%Z).
Proof.
  intros Hsq Hd Hno.
  destruct (any_moves_possible_ok n b Hsq) as (v & Hv & Hiff).
  rewrite Hno in Hv. injection Hv as <-.
  assert (Hfull : ¬ has_empty n b).
  { intros Hz. by pose proof (proj2 Hiff (or_introl Hz)). }
  assert (Hdiff : ¬ has_equal_neighbours n b).
  { intros Hz. by pose proof (proj2 Hiff (or_intror Hz)). }
  destruct (apply_move_view n d Hd)
    as (fwd & bwd & pf & pb & Hfwd & Hbwd & Heq & Hpf & Hpb & Hadj).
  destruct (Hfwd b Hsq) as [Hsqf Hbf].
  assert (Hrows : ∀ r row, fwd b !! r = Some row →
                    row_result row = row ∧ row_score row = 0%Z).
  { intros r row Hrow.
    pose proof (lookup_lt_Some _ _ _ Hrow) as Hr.
    pose proof Hsqf as [Hlenf Hrowsf].
    pose proof (proj1 (Forall_lookup _ _) Hrowsf _ _ Hrow) as Hl. cbn in Hl.
    assert (Hcell : ∀ c x, row !! c = Some x →
              c < n ∧ x = at_cell b (pf r c).1 (pf r c).2
              ∧ (pf r c).1 < n ∧ (pf r c).2 < n).
    { intros c x Hx. pose proof (lookup_lt_Some _ _ _ Hx) as Hc.
      destruct (Hpf b r c) as (Hr' & Hc' & E); [done|lia|lia|].
      rewrite (at_cell_lookup _ _ _ _ _ Hrow Hx) in E. split_and!; (done || lia). }
    assert (Hnz : Forall (λ x, x ≠ 0%Z) row).
    { apply Forall_lookup. intros c x Hx Hz.
      destruct (Hcell c x Hx) as (Hc & E & Hr' & Hc').
      apply Hfull. exists (pf r c).1, (pf r c).2. split_and!; [done..|].
      by rewrite <- E. }
    assert (Hfix : row_result row = row).
    { apply row_result_fixed_iff. split.
      - intros i j Hij Hi _.
        by pose proof (proj1 (Forall_lookup _ _) Hnz _ _ Hi).
      - rewrite tiles_of_nonzero by done. intros c x y Hx Hy E. subst y.
        destruct (Hcell c x Hx) as (Hc & Ex & Hr1 & Hc1).
        destruct (Hcell (S c) x Hy) as (Hc2 & Ey & Hr2 & Hc3).
        apply Hdiff.
        apply (adjacent_equal_neighbours n b (pf r c) (pf r (S c)));
          [done..| | |].
        + replace (S c) with (c + 1) by lia. apply Hadj; lia.
        + rewrite <- Ex. by apply (proj1 (Forall_lookup _ _) Hnz _ _ Hx).
        + by rewrite <- Ex, <- Ey. }
    split; [done|].
    by apply row_score_fixed. }
  rewrite Heq by done.
  assert (E1 : row_result <$> fwd b = fwd b).
  { apply fmap_unchanged. intros i row Hrow. by apply (Hrows i). }
  assert (E2 : row_sum (row_score <$> fwd b) = 0%Z).
  { transitivity (row_sum ((λ _, 0%Z) <$> fwd b)).
    - f_equal. apply list_fmap_ext. intros i row Hrow. by apply (Hrows i).
    - generalize (fwd b). intros l. induction l as [|x l IH]; [done|].
      by rewrite fmap_cons, row_sum_cons, IH. }
  rewrite E1, E2, Hbf. by rewrite bool_decide_eq_false_2 by (intros Hne; by apply Hne).
Qed.

Lemma no_moves_possible_is_stuck_witness :
  square 2 [[2; 4]; [4; 2]]%Z ∧ is_direction "down"
  ∧ any_moves_possible [[2; 4]; [4; 2]]%Z = Ok false
  ∧ apply_move [[2; 4]; [4; 2]]%Z "down" = Ok ([[2; 4]; [4; 2]]%Z, false, 0%Z).
Proof.
  assert (Hsq : square 2 [[2; 4]; [4; 2]]%Z)
    by (split; [reflexivity | repeat constructor]).
  assert (Hd : is_direction "down") by (do 3 right; reflexivity).
  assert (Hno : any_moves_possible [[2; 4]; [4; 2]]%Z = Ok false) by reflexivity.
  split_and!; [done..|].
  exact (no_moves_possible_is_stuck 2 _ "down" Hsq Hd Hno).
Defined.

Lemma row_changes_zero_before_tile row i j x :
  i < j → row !! i = Some 0%Z → row !! j = Some x → x ≠ 0%Z →
  row_result row ≠ row.
Proof.
  intros Hij Hi Hj Hx E. apply row_result_fixed_iff in E as [Hp _].
  pose proof (lookup_lt_Some _ _ _ Hj) as Hlt.
  rewrite (Hp i j Hij Hi Hlt) in Hj. by simplify_eq.
Qed.

Lemma row_changes_equal_pair row i x :
  row !! i = Some x → row !! (S i) = Some x → x ≠ 0%Z →
  row_result row ≠ row.
Proof.
  intros Hi Hj Hx E. apply row_result_fixed_iff in E as [_ Hno].
  rewrite <- (take_drop_middle row i x Hi) in Hno.
  rewrite (drop_S row x (S i) Hj) in Hno.
  unfold spec_tiles in Hno. rewrite filter_app in Hno.
  rewrite !filter_cons_True in Hno by done.
  set (pre := filter (λ x, x ≠ 0%Z) (take i row)) in *.
  set (post := filter (λ x, x ≠ 0%Z) (drop (S (S i)) row)) in *.
  apply (Hno (length pre) x x); [by apply list_lookup_middle| |done].
  replace (pre ++ x :: x :: post) with ((pre ++ [x]) ++ x :: post)
    by (by rewrite <- app_assoc).
  apply list_lookup_middle. rewrite length_app. cbn. lia.
Qed.

Lemma board_changes_at_row (x : board) r row :
  x !! r = Some row → row_result row ≠ row → row_result <$> x ≠ x.
Proof.
  intros Hrow Hne E. apply Hne.
  assert (E2 : (row_result <$> x) !! r = x !! r) by (by rewrite E).
  rewrite list_lookup_fmap, Hrow in E2. cbn in E2. by simplify_eq.
Qed.

Lemma board_changes_zero_before_tile n x r i j :
  square n x → r < n → i < j → j < n →
  at_cell x r i = 0%Z → at_cell x r j ≠ 0%Z → row_result <$> x ≠ x.
Proof.
  intros Hsq Hr Hij Hj Hz Hnz.
  destruct (square_lookup n x r i Hsq Hr) as (row & Hrow & _ & Hi); [lia|].
  destruct (square_lookup n x r j Hsq Hr Hj) as (row' & Hrow' & _ & Hj').
  rewrite Hrow in Hrow'. injection Hrow' as <-. rewrite Hz in Hi.
  apply (board_changes_at_row x r row Hrow).
  by apply (row_changes_zero_before_tile row i j (at_cell x r j)).
Qed.

Lemma board_changes_equal_pair n x r i :
  square n x → r < n → i + 1 < n →
  at_cell x r i ≠ 0%Z → at_cell x r i = at_cell x r (i + 1) →
  row_result <$> x ≠ x.
Proof.
  intros Hsq Hr Hi Hnz E.
  destruct (square_lookup n x r i Hsq Hr) as (row & Hrow & _ & Hx); [lia|].
  destruct (square_lookup n x r (i + 1) Hsq Hr Hi) as (row' & Hrow' & _ & Hy).
  rewrite Hrow in Hrow'. injection Hrow' as <-.
  rewrite <- E in Hy. replace (i + 1) with (S i) in Hy by lia.
  apply (board_changes_at_row x r row Hrow).
  by apply (row_changes_equal_pair row i (at_cell x r i)).
Qed.

Lemma left_changes n b :
  square n b → row_result <$> b ≠ b →
  ∃ b' s, apply_move b "left" = Ok (b', true, s).
Proof.
  intros Hsq Hne. rewrite apply_move_left, move_left_eq.
  rewrite bool_decide_eq_true_2 by done. by eexists _, _.
Qed.

Lemma right_changes n b :
  square n b → row_result <$> mirror b ≠ mirror b →
  ∃ b' s, apply_move b "right" = Ok (b', true, s).
Proof.
  intros Hsq Hne. rewrite apply_move_right, move_right_eq.
  rewrite bool_decide_eq_true_2 by done. by eexists _, _.
Qed.

Lemma up_changes n b :
  square n b → row_result <$> rot_cw n b ≠ rot_cw n b →
  ∃ b' s, apply_move b "up" = Ok (b', true, s).
Proof.
  intros Hsq Hne. rewrite apply_move_up, (move_up_eq n) by done.
  rewrite bool_decide_eq_true_2 by done. by eexists _, _.
Qed.

Lemma down_changes n b :
  square n b → row_result <$> rot_ccw n b ≠ rot_ccw n b →
  ∃ b' s, apply_move b "down" = Ok (b', true, s).
Proof.
  intros Hsq Hne. rewrite apply_move_down, (move_down_eq n) by done.
  rewrite bool_decide_eq_true_2 by done. by eexists _, _.
Qed.

(** X8.  When [any_moves_possible] returns true on a square board that
    holds at least one tile, some direction moves: one of the four moves
    returns changed = true. *)
Theorem moves_possible_some_move_changes n b :
  square n b → has_tile n b → any_moves_possible b = Ok true →
  ∃ d b' s, is_direction d ∧ apply_move b d = Ok (b', true, s).
Proof.
  intros Hsq (r1 & c1 & Hr1 & Hc1 & Htile) Hyes.
  destruct (any_moves_possible_ok n b Hsq) as (v & Hv & Hiff).
  rewrite Hyes in Hv. injection Hv as <-.
  destruct (proj1 Hiff eq_refl)
    as [(r0 & c0 & Hr0 & Hc0 & Hz)
       | [(r & c & Hr & Hc & Hnz & E) | (r & c & Hr & Hc & Hnz & E)]].
  - destruct (decide (at_cell b r0 c1 = 0%Z)) as [Hz1|Hnz1].
    + assert (r0 ≠ r1) by (intros ->; done).
      destruct (decide (r1 < r0)) as [Hlt|Hge].
      * destruct (up_changes n b Hsq) as (b' & s & Hm).
        { apply (board_changes_zero_before_tile n _ c1 (n - 1 - r0) (n - 1 - r1));
            [apply tabulate_square|lia..| |].
          - unfold rot_cw. rewrite at_tabulate by lia.
            by replace (n - 1 - (n - 1 - r0)) with r0 by lia.
          - unfold rot_cw. rewrite at_tabulate by lia.
            by replace (n - 1 - (n - 1 - r1)) with r1 by lia. }
        exists "up", b', s. split; [|done]. right. right. by left.
      * destruct (down_changes n b Hsq) as (b' & s & Hm).
        { apply (board_changes_zero_before_tile n _ (n - 1 - c1) r0 r1);
            [apply tabulate_square|lia..| |].
          - unfold rot_ccw. rewrite at_tabulate by lia.
            by replace (n - 1 - (n - 1 - c1)) with c1 by lia.
          - unfold rot_ccw. rewrite at_tabulate by lia.
            by replace (n - 1 - (n - 1 - c1)) with c1 by lia. }
        exists "down", b', s. split; [|done]. by do 3 right.
    + assert (c0 ≠ c1) by (intros ->; done).
      destruct (decide (c0 < c1)) as [Hlt|Hge].
      * destruct (left_changes n b Hsq) as (b' & s & Hm).
        { by apply (board_changes_zero_before_tile n b r0 c0 c1). }
        exists "left", b', s. split; [|done]. by left.
      * destruct (right_changes n b Hsq) as (b' & s & Hm).
        { apply (board_changes_zero_before_tile n _ r0 (n - 1 - c0) (n - 1 - c1));
            [by apply mirror_square|lia..| |].
          - rewrite (at_cell_mirror n) by (done || lia).
            by replace (n - 1 - (n - 1 - c0)) with c0 by lia.
          - rewrite (at_cell_mirror n) by (done || lia).
            by replace (n - 1 - (n - 1 - c1)) with c1 by lia. }
        exists "right", b', s. split; [|done]. right. by left.
  - destruct (left_changes n b Hsq) as (b' & s & Hm).
    { by apply (board_changes_equal_pair n b r c). }
    exists "left", b', s. split; [|done]. by left.
  - destruct (up_changes n b Hsq) as (b' & s & Hm).
    { apply (board_changes_equal_pair n _ c (n - 1 - (r + 1)));
        [apply tabulate_square|lia..| |].
      - unfold rot_cw. rewrite at_tabulate by lia.
        replace (n - 1 - (n - 1 - (r + 1))) with (r + 1) by lia.
        by rewrite <- E.
      - unfold rot_cw. rewrite !at_tabulate by lia.
        replace (n - 1 - (n - 1 - (r + 1))) with (r + 1) by lia.
        replace (n - 1 - (n - 1 - (r + 1) + 1)) with r by lia.
        done. }
    exists "up", b', s. split; [|done]. right. right. by left.
Qed.

Lemma moves_possible_some_move_changes_witness :
  square 2 [[2; 4]; [0; 2]]%Z ∧ has_tile 2 [[2; 4]; [0; 2]]%Z
  ∧ any_moves_possible [[2; 4]; [0; 2]]%Z = Ok true
  ∧ ∃ d b' s, is_direction d
              ∧ apply_move [[2; 4]; [0; 2]]%Z d = Ok (b', true, s).
Proof.
  assert (Hsq : square 2 [[2; 4]; [0; 2]]%Z)
    by (split; [reflexivity | repeat constructor]).
  assert (Ht : has_tile 2 [[2; 4]; [0; 2]]%Z)
    by (exists 0, 0; split_and!; [lia..|done]).
  assert (Hyes : any_moves_possible [[2; 4]; [0; 2]]%Z = Ok true) by reflexivity.
  split_and!; [done..|].
  exact (moves_possible_some_move_changes 2 _ Hsq Ht Hyes).
Defined.

(** ** Positions and empty cells *)

Lemma iter_positions_fmap b :
  iter_positions b
  = seq 0 (length b) ≫= λ r, (λ c, (r, c)) <$> seq 0 (length b).
Proof.
  unfold iter_positions. apply list_bind_ext; [|done]. intros r.
  induction (seq 0 (length b)) as [|c l IH]; [done|].
  by rewrite bind_cons, fmap_cons, IH.
Qed.

Lemma bind_lookup_chunk {A B} (f : A → list B) m l : ∀ r c x,
  (∀ y, y ∈ l → length (f y) = m) → c < m → l !! r = Some x →
  (l ≫= f) !! (r * m + c) = f x !! c.
Proof.
  induction l as [|y l IH]; intros r c x Hlen Hc Hx; [done|].
  rewrite bind_cons. destruct r as [|r].
  - injection Hx as ->. cbn. rewrite lookup_app_l; [done|].
    rewrite Hlen by left. done.
  - cbn in Hx. rewrite lookup_app_r by (rewrite Hlen by left; lia).
    rewrite Hlen by left. replace (S r * m + c - m) with (r * m + c) by lia.
    apply IH; [|done..]. intros z Hz. apply Hlen. by right.
Qed.

Lemma bind_length_chunk {A B} (f : A → list B) m l :
  (∀ y, y ∈ l → length (f y) = m) → length (l ≫= f) = length l * m.
Proof.
  induction l as [|y l IH]; intros Hlen; [done|].
  rewrite bind_cons, length_app, Hlen by left. cbn.
  rewrite IH; [lia|]. intros z Hz. apply Hlen. by right.
Qed.

Lemma iter_positions_NoDup b : NoDup (iter_positions b).
Proof.
  rewrite iter_positions_fmap. apply NoDup_bind.
  - intros r1 r2 p _ _ (c1 & -> & _)%list_elem_of_fmap (c2 & E & _)%list_elem_of_fmap.
    by injection E.
  - intros r _. apply NoDup_fmap; [|apply NoDup_seq]. by intros c1 c2 [= ->].
  - apply NoDup_seq.
Qed.

(** X9.  [iter_positions] enumerates the positions of the board row by
    row: it yields [len(board)] squared positions, each once, and the
    position at index [r * n + c] is [(r, c)]. *)
Theorem iter_positions_row_major (b : board) :
  length (iter_positions b) = length b * length b
  ∧ NoDup (iter_positions b)
  ∧ ∀ r c, r < length b → c < length b →
      iter_positions b !! (r * length b + c) = Some (r, c).
Proof.
  split_and!.
  - rewrite iter_positions_fmap, (bind_length_chunk _ (length b)).
    + by rewrite length_seq.
    + intros r _. by rewrite length_fmap, length_seq.
  - apply iter_positions_NoDup.
  - intros r c Hr Hc. rewrite iter_positions_fmap.
    rewrite (bind_lookup_chunk _ (length b) _ r c r).
    + by rewrite list_lookup_fmap, lookup_seq_lt.
    + intros y _. by rewrite length_fmap, length_seq.
    + done.
    + by rewrite lookup_seq_lt.
Qed.

Lemma get_empty_positions_eq n b :
  square n b → get_empty_positions b = Ok (empty_cells b).
Proof.
  intros Hsq. pose proof Hsq as [Hlen _].
  apply filterM_ok. intros [r c] [Hr Hc]%elem_of_iter_positions.
  rewrite (cell_ok n) by (done || lia). done.
Qed.

Lemma elem_of_empty_cells n b r c :
  square n b → (r, c) ∈ empty_cells b ↔ r < n ∧ c < n ∧ at_cell b r c = 0%Z.
Proof.
  intros [Hlen _]. unfold empty_cells.
  rewrite list_elem_of_In, filter_In, <- list_elem_of_In.
  rewrite elem_of_iter_positions, Hlen. unfold empty_at. cbn.
  rewrite bool_decide_eq_true. tauto.
Qed.

Lemma filter_sublist_of {A} (g : A → bool) l : List.filter g l `sublist_of` l.
Proof.
  induction l as [|x l IH]; [done|]. cbn.
  destruct (g x); by constructor.
Qed.

(** X10.  On a square board [get_empty_positions] raises nothing and
    returns exactly the positions of the empty cells, each once and in
    the row-by-row order of [iter_positions]. *)
Theorem get_empty_positions_lists_empty_cells n b :
  square n b →
  ∃ l, get_empty_positions b = Ok l
       ∧ l `sublist_of` iter_positions b
       ∧ NoDup l
       ∧ ∀ r c, (r, c) ∈ l ↔ r < n ∧ c < n ∧ at_cell b r c = 0%Z.
Proof.
  intros Hsq. exists (empty_cells b). split_and!.
  - by apply (get_empty_positions_eq n).
  - apply filter_sublist_of.
  - eapply sublist_NoDup; [apply iter_positions_NoDup|apply filter_sublist_of].
  - intros r c. by apply elem_of_empty_cells.
Qed.

Lemma get_empty_positions_lists_empty_cells_witness :
  square 2 [[2; 0]; [0; 4]]%Z
  ∧ ∃ l, get_empty_positions [[2; 0]; [0; 4]]%Z = Ok l
         ∧ l `sublist_of` iter_positions [[2; 0]; [0; 4]]%Z
         ∧ NoDup l
         ∧ ∀ r c, (r, c) ∈ l
                  ↔ r < 2 ∧ c < 2 ∧ at_cell [[2; 0]; [0; 4]]%Z r c = 0%Z.
Proof.
  assert (Hsq : square 2 [[2; 0]; [0; 4]]%Z)
    by (split; [reflexivity | repeat constructor]).
  split; [done|].
  exact (get_empty_positions_lists_empty_cells 2 _ Hsq).
Defined.

Lemma mapM_raise {A B} (f : A → res B) l x :
  x ∈ l → f x = Raise IndexError →
  (∀ y e, f y = Raise e → e = IndexError) →
  mapM f l = Raise IndexError.
Proof.
  intros Hx Hfx Honly. induction l as [|y l IH]; [by apply elem_of_nil in Hx|].
  cbn. destruct (f y) as [v|e] eqn:E.
  - cbn. apply elem_of_cons in Hx as [->|Hx]; [congruence|].
    by rewrite IH.
  - cbn. by rewrite (Honly y e E).
Qed.

Lemma cell_raises_only_IndexError b r c e :
  cell b r c = Raise e → e = IndexError.
Proof.
  unfold cell. destruct (b !! r) as [row|]; [|congruence].
  destruct (row !! c); congruence.
Qed.

Lemma mapM_cell_raises_only_IndexError {A} (f : A → res Z) l e :
  (∀ y e', f y = Raise e' → e' = IndexError) →
  mapM f l = Raise e → e = IndexError.
Proof.
  intros Honly. induction l as [|y l IH]; [done|]. cbn.
  destruct (f y) as [v|e'] eqn:E; cbn.
  - destruct (mapM f l); cbn; [done|]. intros [= <-]. by apply IH.
  - intros [= <-]. by apply (Honly y).
Qed.

(** X11.  On a board with a row shorter than the number of rows, both
    rotations raise [IndexError]. *)
Theorem rotate_short_row_raises (b : board) i row :
  b !! i = Some row → length row < length b →
  rotate_cw b = Raise IndexError ∧ rotate_ccw b = Raise IndexError.
Proof.
  intros Hrow Hshort.
  pose proof (lookup_lt_Some _ _ _ Hrow) as Hi.
  set (n := length b) in *. split.
  - unfold rotate_cw. fold n.
    rewrite (mapM_raise _ _ (length row)); [done|by apply elem_of_seq0| |].
    + apply (mapM_raise _ _ (n - 1 - i)); [apply elem_of_seq0; lia| |].
      * unfold cell. replace (n - 1 - (n - 1 - i)) with i by lia.
        rewrite Hrow. by rewrite lookup_ge_None_2.
      * intros c e. apply cell_raises_only_IndexError.
    + intros r e. apply mapM_cell_raises_only_IndexError.
      intros c e'. apply cell_raises_only_IndexError.
  - unfold rotate_ccw. fold n.
    rewrite (mapM_raise _ _ (n - 1 - length row));
      [done|apply elem_of_seq0; lia| |].
    + apply (mapM_raise _ _ i); [by apply elem_of_seq0| |].
      * unfold cell. rewrite Hrow.
        replace (n - 1 - (n - 1 - length row)) with (length row) by lia.
        by rewrite lookup_ge_None_2.
      * intros c e. apply cell_raises_only_IndexError.
    + intros r e. apply mapM_cell_raises_only_IndexError.
      intros c e'. apply cell_raises_only_IndexError.
Qed.

Lemma rotate_short_row_raises_witness :
  [[2; 4]; [4]]%Z !! 1 = Some [4%Z] ∧ length [4%Z] < length [[2; 4]; [4]]%Z
  ∧ rotate_cw [[2; 4]; [4]]%Z = Raise IndexError
  ∧ rotate_ccw [[2; 4]; [4]]%Z = Raise IndexError.
Proof.
  assert (H1 : [[2; 4]; [4]]%Z !! 1 = Some [4%Z]) by reflexivity.
  assert (H2 : length [4%Z] < length [[2; 4]; [4]]%Z) by (cbn; lia).
  split_and!; [done..| |]; apply (rotate_short_row_raises _ 1 [4%Z] H1 H2).
Defined.

(** X12.  On a square board the two rotations raise nothing, return
    square boards, and undo each other; four clockwise quarter turns give
    the board back. *)
Theorem rotations_round_trip n b :
  square n b →
  (∃ b1, rotate_cw b = Ok b1 ∧ square n b1 ∧ rotate_ccw b1 = Ok b)
  ∧ (∃ b2, rotate_ccw b = Ok b2 ∧ square n b2 ∧ rotate_cw b2 = Ok b)
  ∧ (b1 ← rotate_cw b; b2 ← rotate_cw b1; b3 ← rotate_cw b2; rotate_cw b3)
    = Ok b.
Proof.
  intros Hsq.
  assert (Hcw : ∀ x, square n x → rotate_cw x = Ok (rot_cw n x))
    by (intros x Hx; by apply rotate_cw_ok).
  assert (Hccw : ∀ x, square n x → rotate_ccw x = Ok (rot_ccw n x))
    by (intros x Hx; by apply rotate_ccw_ok).
  assert (Hs : ∀ x, square n (rot_cw n x)) by (intros; apply tabulate_square).
  assert (Hs' : ∀ x, square n (rot_ccw n x)) by (intros; apply tabulate_square).
  split_and!.
  - exists (rot_cw n b). rewrite Hcw, Hccw, rot_ccw_cw by done. done.
  - exists (rot_ccw n b). rewrite Hccw, Hcw, rot_cw_ccw by done. done.
  - rewrite Hcw by done. cbn. rewrite Hcw by done. cbn.
    rewrite Hcw by done. cbn. rewrite Hcw by done. f_equal.
    rewrite <- (tabulate_at n b Hsq) at 2.
    apply tabulate_ext. intros r c Hr Hc.
    unfold rot_cw. rewrite !at_tabulate by lia. f_equal; lia.
Qed.

Lemma rotations_round_trip_witness :
  square 2 [[2; 4]; [0; 8]]%Z
  ∧ (∃ b1, rotate_cw [[2; 4]; [0; 8]]%Z = Ok b1 ∧ square 2 b1
           ∧ rotate_ccw b1 = Ok [[2; 4]; [0; 8]]%Z)
  ∧ (∃ b2, rotate_ccw [[2; 4]; [0; 8]]%Z = Ok b2 ∧ square 2 b2
           ∧ rotate_cw b2 = Ok [[2; 4]; [0; 8]]%Z)
  ∧ (b1 ← rotate_cw [[2; 4]; [0; 8]]%Z; b2 ← rotate_cw b1;
     b3 ← rotate_cw b2; rotate_cw b3)
    = Ok [[2; 4]; [0; 8]]%Z.
Proof.
  assert (Hsq : square 2 [[2; 4]; [0; 8]]%Z)
    by (split; [reflexivity | repeat constructor]).
  split; [done|].
  exact (rotations_round_trip 2 _ Hsq).
Defined.

(** ** The empty board *)

Lemma at_cell_empty_board size r c : at_cell (empty_board size) r c = 0%Z.
Proof.
  unfold at_cell, cell, empty_board.
  destruct (replicate _ _ !! r) as [row|] eqn:Hrow; [|done].
  apply lookup_replicate in Hrow as [-> _].
  destruct (replicate _ _ !! c) as [v|] eqn:Hv; [|done].
  by apply lookup_replicate in Hv as [-> _].
Qed.

Lemma empty_board_square size : square (Z.to_nat size) (empty_board size).
Proof.
  split; unfold empty_board.
  - by rewrite length_replicate.
  - apply Forall_replicate. by rewrite length_replicate.
Qed.

Lemma filter_all_true {A} (g : A → bool) l :
  (∀ x, g x = true) → List.filter g l = l.
Proof.
  intros Hg. induction l as [|x l IH]; [done|]. cbn. by rewrite Hg, IH.
Qed.

Lemma empty_cells_empty_board size :
  empty_cells (empty_board size) = iter_positions (empty_board size).
Proof.
  apply filter_all_true. intros [r c]. unfold empty_at.
  by rewrite at_cell_empty_board.
Qed.

Lemma board_sum_empty_board size : board_sum (empty_board size) = 0%Z.
Proof.
  unfold board_sum, empty_board.
  induction (Z.to_nat size) as [|k IH] at 1; [done|].
  cbn [replicate]. by rewrite fmap_cons, row_sum_cons, row_sum_zeros, IH.
Qed.

(** X13.  [empty_board(size)] is the square board of side [size] (side 0
    for a negative size) whose cells are all empty: [get_empty_positions]
    returns every position of it, and its cells sum to 0. *)
Theorem empty_board_all_empty (size : Z) :
  square (Z.to_nat size) (empty_board size)
  ∧ (∀ r c, at_cell (empty_board size) r c = 0%Z)
  ∧ get_empty_positions (empty_board size)
    = Ok (iter_positions (empty_board size))
  ∧ length (iter_positions (empty_board size))
    = Z.to_nat size * Z.to_nat size
  ∧ board_sum (empty_board size) = 0%Z.
Proof.
  pose proof (empty_board_square size) as Hsq.
  split_and!; [done|apply at_cell_empty_board| | |apply board_sum_empty_board].
  - rewrite (get_empty_positions_eq _ _ Hsq). by rewrite empty_cells_empty_board.
  - rewrite iter_positions_fmap, (bind_length_chunk _ (length (empty_board size))).
    + rewrite length_seq. by destruct Hsq as [-> _].
    + intros r _. by rewrite length_fmap, length_seq.
Qed.

(** ** Spawning a tile *)

Lemma row_sum_insert row c x v :
  row !! c = Some x → row_sum (<[c := v]> row) = (row_sum row - x + v)%Z.
Proof.
  revert c. induction row as [|y row IH]; intros [|c] Hc; [done..| |].
  - injection Hc as ->. cbn [insert list_insert]. rewrite !row_sum_cons. lia.
  - cbn in Hc. change (<[S c := v]> (y :: row)) with (y :: <[c := v]> row).
    rewrite !row_sum_cons, (IH c Hc). lia.
Qed.

Lemma board_sum_insert (b : board) r row row' :
  b !! r = Some row →
  board_sum (<[r := row']> b) = (board_sum b - row_sum row + row_sum row')%Z.
Proof.
  intros Hrow. unfold board_sum. rewrite list_fmap_insert.
  apply row_sum_insert. by rewrite list_lookup_fmap, Hrow.
Qed.

Lemma set_cell_ok n b r c v :
  square n b → r < n → c < n →
  ∃ b', set_cell b r c v = Ok b'
        ∧ square n b' ∧ at_cell b' r c = v
        ∧ (∀ r' c', (r', c') ≠ (r, c) → at_cell b' r' c' = at_cell b r' c')
        ∧ board_sum b' = (board_sum b - at_cell b r c + v)%Z.
Proof.
  intros Hsq Hr Hc.
  destruct (square_lookup n b r c Hsq Hr Hc) as (row & Hrow & Hlen & Hv).
  pose proof Hsq as [Hlenb Hrows].
  exists (<[r := <[c := v]> row]> b). split_and!.
  - unfold set_cell. rewrite Hrow. by rewrite bool_decide_eq_true_2 by lia.
  - split; [by rewrite length_insert|].
    apply Forall_insert; [done|]. by rewrite length_insert.
  - apply (at_cell_lookup _ _ _ (<[c := v]> row)).
    + apply list_lookup_insert_eq. lia.
    + apply list_lookup_insert_eq. lia.
  - intros r' c' Hne. unfold at_cell, cell.
    destruct (decide (r' = r)) as [->|Hr'].
    + rewrite list_lookup_insert_eq by lia. rewrite Hrow.
      rewrite list_lookup_insert_ne; [done|]. intros ->. by apply Hne.
    + by rewrite list_lookup_insert_ne.
  - rewrite (board_sum_insert b r row) by done.
    rewrite (row_sum_insert row c (at_cell b r c)) by done. lia.
Qed.

Lemma filter_flip_one {A} (g g' : A → bool) (l : list A) x :
  NoDup l → x ∈ l → g x = true → g' x = false →
  (∀ y, y ≠ x → g' y = g y) →
  length (List.filter g' l) + 1 = length (List.filter g l).
Proof.
  intros Hnd Hx Hg Hg' Hsame.
  induction Hnd as [|y l Hy Hnd IH]; [by apply elem_of_nil in Hx|].
  apply elem_of_cons in Hx as [<-|Hx].
  - cbn. rewrite Hg, Hg'. cbn.
    assert (E : List.filter g' l = List.filter g l).
    { clear IH. induction l as [|z l IHl]; [done|]. cbn.
      apply not_elem_of_cons in Hy as [Hz Hy]. rewrite Hsame by done.
      apply NoDup_cons in Hnd as [_ Hnd]. by rewrite IHl. }
    rewrite E. lia.
  - cbn. assert (y ≠ x) by (intros ->; done). rewrite Hsame by done.
    destruct (g y); cbn; rewrite <- IH by done; lia.
Qed.

Lemma spawned_at_empty_cells n b b' r c v :
  square n b → spawned_at n b b' r c v →
  length (empty_cells b') + 1 = length (empty_cells b).
Proof.
  intros Hsq (Hr & Hc & Hz & Hv & Hsq' & Hnew & Hsame).
  unfold empty_cells.
  assert (E : iter_positions b' = iter_positions b).
  { unfold iter_positions. destruct Hsq as [-> _], Hsq' as [-> _]. done. }
  rewrite E.
  apply (filter_flip_one _ _ _ (r, c)).
  - apply iter_positions_NoDup.
  - apply elem_of_iter_positions. destruct Hsq as [-> _]. done.
  - unfold empty_at. cbn. by apply bool_decide_eq_true.
  - unfold empty_at. cbn. apply bool_decide_eq_false. rewrite Hnew.
    destruct Hv as [-> | ->]; done.
  - intros [r' c'] Hne. unfold empty_at. cbn. by rewrite Hsame.
Qed.

Lemma empty_cells_nonempty n b :
  square n b → empty_cells b ≠ [] ↔ has_empty n b.
Proof.
  intros Hsq. split.
  - intros Hne. destruct (empty_cells b) as [|[r c] l] eqn:E; [done|].
    assert (Hin : (r, c) ∈ empty_cells b) by (rewrite E; left).
    apply (elem_of_empty_cells n) in Hin; [|done]. by exists r, c.
  - intros (r & c & Hrc) E.
    assert (Hin : (r, c) ∈ empty_cells b) by (by apply (elem_of_empty_cells n)).
    rewrite E in Hin. by apply elem_of_nil in Hin.
Qed.

Section Spawn.
Context {W : Type} `{RandomModule W}.

Lemma add_random_tile_spawn n b (rnd : source W) (w : W) :
  square n b → has_empty n b →
  ∃ r c v b' w',
    add_random_tile b rnd w = (Ok (b', Some (r, c, v)), w')
    ∧ spawned_at n b b' r c v
    ∧ board_sum b' = (board_sum b + v)%Z.
Proof.
  intros Hsq Hempty.
  pose proof (proj2 (empty_cells_nonempty n b Hsq) Hempty) as Hne.
  unfold add_random_tile. rewrite io_bind_eq. unfold lift.
  rewrite (get_empty_positions_eq n) by done. cbv beta iota.
  rewrite bool_decide_eq_false_2 by done.
  rewrite io_bind_eq. unfold random_choice.
  rewrite bool_decide_eq_false_2 by done.
  assert (Hpos : 0 < length (empty_cells b))
    by (destruct (empty_cells b); [done|cbn; lia]).
  pose proof (randbelow_lt w _ Hpos) as Hk.
  destruct (randbelow w (length (empty_cells b))) as [k w1]. cbn [fst] in Hk.
  destruct (lookup_lt_is_Some_2 _ _ Hk) as [[r c] Hrc]. rewrite Hrc.
  assert (Hin : (r, c) ∈ empty_cells b) by (by eapply list_elem_of_lookup_2).
  apply (elem_of_empty_cells n) in Hin as (Hr & Hc & Hz); [|done].
  cbv beta iota. rewrite io_bind_eq. unfold call.
  destruct (rnd w1) as [x w2]. cbv beta iota. rewrite io_bind_eq.
  set (v := if PrimFloat.ltb x one_tenth then 4%Z else 2%Z).
  assert (Hv : v = 2%Z ∨ v = 4%Z)
    by (unfold v; destruct (PrimFloat.ltb x one_tenth); auto).
  destruct (set_cell_ok n b r c v Hsq Hr Hc)
    as (b' & Hset & Hsq' & Hnew & Hsame & Hsum).
  unfold lift, board_to_list, list_to_board. rewrite Hset.
  exists r, c, v, b', w2. split_and!; [done| |rewrite Hsum, Hz; lia].
  by split_and!.
Qed.

Lemma add_random_tile_no_room n b (rnd : source W) (w : W) :
  square n b → ¬ has_empty n b →
  add_random_tile b rnd w = (Ok (b, None), w).
Proof.
  intros Hsq Hfull. apply add_random_tile_full.
  rewrite (get_empty_positions_eq n) by done. f_equal.
  destruct (empty_cells b) as [|p l] eqn:E; [done|].
  destruct Hfull. apply (empty_cells_nonempty n); [done|]. by rewrite E.
Qed.

(** X14.  On a square board with an empty cell [add_random_tile] raises
    nothing and writes one tile: a position that was empty now holds 2
    or 4, that position and value are the ones it reports, every other
    cell is as before, the board stays square, one position less is
    empty and the total of the cells grows by the value written. *)
Theorem add_random_tile_writes_one_tile n b (rnd : source W) (w : W) :
  square n b → has_empty n b →
  ∃ r c v b' w',
    add_random_tile b rnd w = (Ok (b', Some (r, c, v)), w')
    ∧ r < n ∧ c < n ∧ at_cell b r c = 0%Z ∧ (v = 2%Z ∨ v = 4%Z)
    ∧ square n b' ∧ at_cell b' r c = v
    ∧ (∀ r' c', (r', c') ≠ (r, c) → at_cell b' r' c' = at_cell b r' c')
    ∧ length (empty_cells b') + 1 = length (empty_cells b)
    ∧ board_sum b' = (board_sum b + v)%Z.
Proof.
  intros Hsq Hempty.
  destruct (add_random_tile_spawn n b rnd w Hsq Hempty)
    as (r & c & v & b' & w' & Hadd & Hsp & Hsum).
  pose proof (spawned_at_empty_cells n b b' r c v Hsq Hsp) as Hcount.
  destruct Hsp as (Hr & Hc & Hz & Hv & Hsq' & Hnew & Hsame).
  exists r, c, v, b', w'. by split_and!.
Qed.

(** X15.  On a square board without an empty cell [add_random_tile]
    returns the board it was given and no placement, and draws nothing
    from the generator or from [rnd]. *)
Theorem add_random_tile_full_board n b (rnd : source W) (w : W) :
  square n b → ¬ has_empty n b →
  add_random_tile b rnd w = (Ok (b, None), w).
Proof. apply add_random_tile_no_room. Qed.
End Spawn.

Lemma add_random_tile_writes_one_tile_witness :
  square 2 [[2; 0]; [0; 4]]%Z ∧ has_empty 2 [[2; 0]; [0; 4]]%Z
  ∧ ∃ r c v b' w',
      add_random_tile [[2; 0]; [0; 4]]%Z constant_half 1%nat
      = (Ok (b', Some (r, c, v)), w')
      ∧ r < 2 ∧ c < 2 ∧ at_cell [[2; 0]; [0; 4]]%Z r c = 0%Z
      ∧ (v = 2%Z ∨ v = 4%Z)
      ∧ square 2 b' ∧ at_cell b' r c = v
      ∧ (∀ r' c', (r', c') ≠ (r, c)
                  → at_cell b' r' c' = at_cell [[2; 0]; [0; 4]]%Z r' c')
      ∧ length (empty_cells b') + 1 = length (empty_cells [[2; 0]; [0; 4]]%Z)
      ∧ board_sum b' = (board_sum [[2; 0]; [0; 4]]%Z + v)%Z.
Proof.
  assert (Hsq : square 2 [[2; 0]; [0; 4]]%Z)
    by (split; [reflexivity | repeat constructor]).
  assert (He : has_empty 2 [[2; 0]; [0; 4]]%Z)
    by (exists 0, 1; split_and!; [lia..|done]).
  split_and!; [done..|].
  exact (add_random_tile_writes_one_tile 2 _ constant_half 1%nat Hsq He).
Defined.

Lemma full_board_has_no_empty : ¬ has_empty 2 full_board.
Proof.
  intros (r & c & Hr & Hc & Hz).
  destruct r as [|[|r]], c as [|[|c]]; try lia; cbn in Hz; discriminate Hz.
Qed.

Lemma add_random_tile_full_board_witness :
  square 2 full_board ∧ ¬ has_empty 2 full_board
  ∧ add_random_tile full_board constant_half 7%nat = (Ok (full_board, None), 7%nat).
Proof.
  assert (Hsq : square 2 full_board)
    by (split; [reflexivity | repeat constructor]).
  split_and!; [done|apply full_board_has_no_empty|].
  exact (add_random_tile_full_board 2 _ constant_half 7%nat Hsq
           full_board_has_no_empty).
Defined.

(** ** Starting and playing a game *)


Section Play.
Context {W : Type} `{RandomModule W}.

Lemma init_game_fresh size (rnd : source W) (w : W) :
  (2 ≤ size)%Z →
  ∃ b w', init_game size rnd w = (Ok (b, 0%Z), w')
          ∧ fresh_board (Z.to_nat size) b.
Proof.
  intros Hsize. set (n := Z.to_nat size).
  assert (Hn : 2 ≤ n) by (unfold n; lia).
  pose proof (empty_board_square size) as Hsq0. fold n in Hsq0.
  assert (Hcount0 : length (empty_cells (empty_board size)) = n * n).
  { rewrite empty_cells_empty_board, iter_positions_fmap.
    rewrite (bind_length_chunk _ (length (empty_board size))).
    - rewrite length_seq. by destruct Hsq0 as [-> _].
    - intros r _. by rewrite length_fmap, length_seq. }
  assert (He0 : has_empty n (empty_board size)).
  { exists 0, 0. split_and!; [lia..|apply at_cell_empty_board]. }
  destruct (add_random_tile_spawn n _ rnd w Hsq0 He0)
    as (r1 & c1 & v1 & b1 & w1 & Hadd1 & Hsp1 & Hsum1).
  pose proof (spawned_at_empty_cells n _ b1 r1 c1 v1 Hsq0 Hsp1) as Hcount1.
  destruct Hsp1 as (Hr1 & Hc1 & Hz1 & Hv1 & Hsq1 & Hnew1 & Hsame1).
  assert (He1 : has_empty n b1).
  { apply (empty_cells_nonempty n); [done|].
    destruct (empty_cells b1); [|done]. cbn in Hcount1. nia. }
  destruct (add_random_tile_spawn n b1 rnd w1 Hsq1 He1)
    as (r2 & c2 & v2 & b2 & w2 & Hadd2 & Hsp2 & Hsum2).
  pose proof (spawned_at_empty_cells n b1 b2 r2 c2 v2 Hsq1 Hsp2) as Hcount2.
  destruct Hsp2 as (Hr2 & Hc2 & Hz2 & Hv2 & Hsq2 & Hnew2 & Hsame2).
  exists b2, w2. split.
  - unfold init_game. rewrite io_bind_eq, Hadd1. cbv beta iota.
    by rewrite io_bind_eq, Hadd2.
  - assert (Hsum : (4 ≤ board_sum b2 ≤ 8)%Z).
    { rewrite Hsum2, Hsum1, board_sum_empty_board.
      destruct Hv1 as [-> | ->], Hv2 as [-> | ->]; lia. }
    split; [done|]. split; [|split; [lia|done]].
    + intros r c Hr Hc.
      destruct (decide ((r, c) = (r2, c2))) as [[= -> ->]|Hne2].
      { rewrite Hnew2. tauto. }
      rewrite Hsame2 by done.
      destruct (decide ((r, c) = (r1, c1))) as [[= -> ->]|Hne1].
      { rewrite Hnew1. tauto. }
      rewrite Hsame1 by done. left. apply at_cell_empty_board.
Qed.

(** X16.  For every size of 2 or more [init_game] raises nothing and
    returns score 0 with a square board of that side holding exactly two
    tiles, each a 2 or a 4: every other cell is empty. *)
Theorem init_game_two_tiles size (rnd : source W) (w : W) :
  (2 ≤ size)%Z →
  ∃ b w', init_game size rnd w = (Ok (b, 0%Z), w')
          ∧ square (Z.to_nat size) b
          ∧ all_cells (Z.to_nat size) (λ v, v = 0%Z ∨ v = 2%Z ∨ v = 4%Z) b
          ∧ length (empty_cells b) + 2 = Z.to_nat size * Z.to_nat size
          ∧ (4 ≤ board_sum b ≤ 8)%Z.
Proof. intros Hsize. by apply init_game_fresh. Qed.

Lemma apply_move_invalid b d :
  ¬ is_direction d → apply_move b d = Raise ValueError.
Proof.
  intros Hd. unfold apply_move, is_direction in *.
  by rewrite !bool_decide_eq_false_2 by tauto.
Qed.

(** X17.  A direction other than the four names makes [apply_move] raise
    [ValueError] whatever the board, and [perform_move] then leaves the
    session and the generator as they were. *)
Theorem invalid_direction_raises (self : GameUI) d (w : W) :
  ¬ is_direction d →
  apply_move (ui_board self) d = Raise ValueError
  ∧ perform_move self d w = (Raise ValueError, self, w).
Proof.
  intros Hd. pose proof (apply_move_invalid (ui_board self) d Hd) as E.
  split; [done|]. unfold perform_move. by rewrite E.
Qed.

End Play.



Section SessionFacts.
Context {W : Type} `{RandomModule W}.






(** X22.  Whatever the arguments and whatever the conversion of the first
    one gives, the size [main] starts with is 2 or more, a converted size
    of 2 or more is kept as it is, and [init_game] on that size returns a
    board with exactly two tiles. *)
Theorem main_starts_a_game (int_of_string : string → option Z)
    (argv : list string) (rnd : source W) (w : W) :
  (2 ≤ main_size int_of_string argv)%Z
  ∧ (∀ arg rest size, argv = arg :: rest → int_of_string arg = Some size →
       (2 ≤ size)%Z → main_size int_of_string argv = size)
  ∧ ∃ b w',
      init_game (main_size int_of_string argv) rnd w = (Ok (b, 0%Z), w')
      ∧ fresh_board (Z.to_nat (main_size int_of_string argv)) b.
Proof.
  assert (Hsize : (2 ≤ main_size int_of_string argv)%Z).
  { unfold main_size. destruct argv as [|arg rest]; [lia|].
    destruct (int_of_string arg) as [size|]; [|lia].
    case_bool_decide; lia. }
  split_and!; [done| |by apply init_game_fresh].
  intros arg rest size -> Hconv Hge. unfold main_size. rewrite Hconv.
  by rewrite bool_decide_eq_false_2 by lia.
Qed.
End SessionFacts.

Lemma init_game_two_tiles_witness :
  (2 ≤ 3)%Z
  ∧ ∃ b w', init_game 3 constant_half 4%nat = (Ok (b, 0%Z), w')
            ∧ square (Z.to_nat 3) b
            ∧ all_cells (Z.to_nat 3) (λ v, v = 0%Z ∨ v = 2%Z ∨ v = 4%Z) b
            ∧ length (empty_cells b) + 2 = Z.to_nat 3 * Z.to_nat 3
            ∧ (4 ≤ board_sum b ≤ 8)%Z.
Proof.
  assert (H3 : (2 ≤ 3)%Z) by lia.
  split; [done|].
  exact (init_game_two_tiles 3 constant_half 4%nat H3).
Defined.

Lemma sideways_is_no_direction : ¬ is_direction "sideways".
Proof. intros [E | [E | [E | E]]]; discriminate E. Qed.

Lemma invalid_direction_raises_witness :
  ¬ is_direction "sideways"
  ∧ apply_move (ui_board running_session) "sideways" = Raise ValueError
  ∧ perform_move running_session "sideways" 3%nat
    = (Raise ValueError, running_session, 3%nat).
Proof.
  split; [apply sideways_is_no_direction|].
  exact (invalid_direction_raises running_session "sideways" 3%nat
           sideways_is_no_direction).
Defined.








Example on_key_examples :
  on_key running_session "a" 0%nat = on_key running_session "Left" 0%nat
  ∧ on_key running_session "x" 0%nat = (Ok (), running_session, 0%nat)
  ∧ on_key running_session "Left" 0%nat
    = (Ok (),
       {| ui_size := 2; ui_goal := 2048; ui_score := 12;
          ui_board := [[4; 4]; [4; 0]]%Z |}, 2%nat).
Proof. split_and!; vm_compute; reflexivity. Qed.

(** ** A reached goal stays reached *)

Lemma merged_tiles_dominate tiles x :
  Forall (λ v, 0 ≤ v)%Z tiles → x ∈ tiles →
  ∃ y, y ∈ spec_merged_tiles tiles ∧ (x ≤ y)%Z.
Proof.
  revert x.
  induction tiles as [| a | a b t IHt IHbt] using tiles_ind; intros x Hnn Hx.
  - by apply elem_of_nil in Hx.
  - exists x. by split.
  - apply Forall_cons in Hnn as [Ha Hbt].
    pose proof Hbt as Hbt2. apply Forall_cons in Hbt2 as [Hb Ht].
    rewrite spec_merged_tiles_pair. case_bool_decide as Hab.
    + subst b. apply elem_of_cons in Hx as [->|Hx].
      { exists (2 * a)%Z. split; [left|lia]. }
      apply elem_of_cons in Hx as [->|Hx].
      { exists (2 * a)%Z. split; [left|lia]. }
      destruct (IHt x Ht Hx) as (y & Hy & Hle). exists y. split; [by right|done].
    + apply elem_of_cons in Hx as [->|Hx].
      { exists a. split; [left|lia]. }
      destruct (IHbt x Hbt Hx) as (y & Hy & Hle). exists y. split; [by right|done].
Qed.

Lemma row_result_dominates row x :
  Forall (λ v, 0 ≤ v)%Z row → x ∈ row →
  ∃ y, y ∈ row_result row ∧ (x ≤ y)%Z.
Proof.
  intros Hnn Hx. destruct (decide (x = 0%Z)) as [->|Hnz].
  - pose proof (row_result_length row) as Hlen.
    destruct (row_result row) as [|y l] eqn:E.
    { destruct row; [by apply elem_of_nil in Hx|done]. }
    exists y. split; [left|].
    assert (Hall : Forall (λ v, 0 ≤ v)%Z (row_result row)).
    { apply row_result_Forall; [simpl; lia|simpl; intros; lia|done]. }
    rewrite E in Hall. by apply Forall_cons in Hall as [? _].
  - assert (Hin : x ∈ spec_tiles row) by (by apply list_elem_of_filter).
    destruct (merged_tiles_dominate (spec_tiles row) x) as (y & Hy & Hle);
      [|done|].
    { apply Forall_forall. intros z [_ Hz]%list_elem_of_filter.
      by apply (proj1 (Forall_forall _ _) Hnn). }
    exists y. split; [|done]. rewrite row_result_pad. unfold spec_pad.
    apply elem_of_app. by left.
Qed.

Lemma apply_move_keeps_reach n b d b' changed s goal :
  square n b → is_direction d → apply_move b d = Ok (b', changed, s) →
  all_cells n (λ v, 0 ≤ v)%Z b → reaches n b goal → reaches n b' goal.
Proof.
  intros Hsq Hd Hmove Hnn (r & c & Hr & Hc & Hgoal).
  destruct (apply_move_view n d Hd)
    as (fwd & bwd & pf & pb & Hfwd & Hbwd & Heq & Hpf & Hpb & _).
  rewrite Heq in Hmove by done. injection Hmove as <- _ _.
  destruct (Hfwd b Hsq) as [Hsqf Hbf].
  pose proof (fmap_result_square n _ Hsqf) as Hsqm.
  destruct (Hbwd _ Hsqm) as [Hsqb Hfb].
  (* the cell seen in [fwd b] *)
  destruct (Hpb (fwd b) r c Hsqf Hr Hc) as (Hr1 & Hc1 & E1).
  rewrite Hbf in E1.
  set (r1 := (pb r c).1) in *. set (c1 := (pb r c).2) in *.
  destruct (square_lookup n (fwd b) r1 c1 Hsqf Hr1 Hc1)
    as (row & Hrow & Hlen & Hv).
  pose proof (relabels_all_cells n fwd pf _ b Hpf Hsq Hnn) as Hnnf.
  apply all_cells_rows in Hnnf; [|done].
  pose proof (proj1 (Forall_lookup _ _) Hnnf _ _ Hrow) as Hrownn.
  destruct (row_result_dominates row (at_cell (fwd b) r1 c1) Hrownn)
    as (y & Hy & Hle); [by eapply list_elem_of_lookup_2|].
  apply list_elem_of_lookup in Hy as [c2 Hc2].
  pose proof (lookup_lt_Some _ _ _ Hc2) as Hc2lt.
  rewrite row_result_length, Hlen in Hc2lt.
  assert (Hcell : at_cell (row_result <$> fwd b) r1 c2 = y).
  { apply (at_cell_lookup _ _ _ (row_result row)); [|done].
    by rewrite list_lookup_fmap, Hrow. }
  rewrite <- Hfb in Hcell.
  destruct (Hpf (bwd (row_result <$> fwd b)) r1 c2 Hsqb Hr1 Hc2lt)
    as (Hr3 & Hc3 & E3).
  rewrite E3 in Hcell. eexists _, _. split_and!; [exact Hr3|exact Hc3|].
  rewrite Hcell. lia.
Qed.

(** X23.  A goal that is reached stays reached: on a square board without
    negative cells, when [reached_goal] returns true, it also returns true
    on the board returned by any of the four moves. *)
Theorem reached_goal_survives_move n b d b' changed s goal :
  square n b → all_cells n (λ v, 0 ≤ v)%Z b → is_direction d →
  apply_move b d = Ok (b', changed, s) →
  reached_goal b goal = Ok true → reached_goal b' goal = Ok true.
Proof.
  intros Hsq Hnn Hd Hmove Hgoal.
  pose proof (apply_move_square n b d b' changed s Hsq Hd Hmove) as Hsq'.
  destruct (reached_goal_ok n b Hsq goal) as (v & Hv & Hiff).
  rewrite Hgoal in Hv. injection Hv as <-.
  destruct (reached_goal_ok n b' Hsq' goal) as (v' & Hv' & Hiff').
  rewrite Hv'. f_equal. apply Hiff'.
  apply (apply_move_keeps_reach n b d b' changed s goal Hsq Hd Hmove Hnn).
  by apply Hiff.
Qed.

Lemma reached_goal_survives_move_witness :
  square 2 [[8; 0]; [2; 2]]%Z ∧ all_cells 2 (λ v, 0 ≤ v)%Z [[8; 0]; [2; 2]]%Z
  ∧ is_direction "right"
  ∧ apply_move [[8; 0]; [2; 2]]%Z "right" = Ok ([[0; 8]; [0; 4]]%Z, true, 4%Z)
  ∧ reached_goal [[8; 0]; [2; 2]]%Z 8 = Ok true
  ∧ reached_goal [[0; 8]; [0; 4]]%Z 8 = Ok true.
Proof.
  assert (Hsq : square 2 [[8; 0]; [2; 2]]%Z)
    by (split; [reflexivity | repeat constructor]).
  assert (Hnn : all_cells 2 (λ v, 0 ≤ v)%Z [[8; 0]; [2; 2]]%Z).
  { intros [|[|r]] [|[|c]] Hr Hc; try lia; cbn; lia. }
  assert (Hd : is_direction "right") by (right; left; reflexivity).
  assert (Hm : apply_move [[8; 0]; [2; 2]]%Z "right"
               = Ok ([[0; 8]; [0; 4]]%Z, true, 4%Z)) by reflexivity.
  assert (Hg : reached_goal [[8; 0]; [2; 2]]%Z 8 = Ok true) by reflexivity.
  split_and!; [done..|].
  exact (reached_goal_survives_move 2 _ "right" _ true 4%Z 8 Hsq Hnn Hd Hm Hg).
Defined.

Section Won.
Context {W : Type} `{RandomModule W}.

End Won.



(** ** The left move row by row, and its mirror image *)

(** X25.  [move_left] treats the rows independently, whatever their
    lengths: row [i] of the result is [merge_row_left] of row [i], the
    score is the sum of the scores of the rows, and changed is true
    exactly when some row is changed by [merge_row_left]. *)
Theorem move_left_row_by_row (b : board) :
  (move_left b).1.1 = (λ row, (merge_row_left row).1) <$> b
  ∧ (move_left b).2 = row_sum ((λ row, (merge_row_left row).2) <$> b)
  ∧ ((move_left b).1.2 = true
     ↔ ∃ i row, b !! i = Some row ∧ (merge_row_left row).1 ≠ row).
Proof.
  rewrite move_left_eq. cbn [fst snd]. split_and!; [done..|].
  rewrite bool_decide_eq_true. split.
  - intros Hne. by apply fmap_changed_row in Hne.
  - intros (i & row & Hrow & Hne). by apply (board_changes_at_row b i row).
Qed.

(** X26.  Right is the mirror image of left: moving the mirrored board to
    the right gives the mirror image of moving the board to the left, with
    the same changed flag and the same score. *)
Theorem move_right_mirrors_move_left (b : board) :
  move_right (mirror b)
  = (mirror (move_left b).1.1, (move_left b).1.2, (move_left b).2).
Proof.
  rewrite move_right_eq, move_left_eq, mirror_mirror. done.
Qed.
